(** * appdash: span identifiers and the in-memory trace store

    A shallow embedding of [span.go] (the [SpanID] model with its text
    encoding, and the [memoryStore] that assembles spans into trace
    trees), followed by the properties of the store and of the encoding. *)

From Stdlib Require Import NArith Ascii String.
From stdpp Require Import base option list gmap.

Local Open Scope N_scope.
Local Open Scope list_scope.

(** ** Identifiers *)

(** [type ID uint64]: identifiers are unsigned 64-bit values; zero means
    "absent". *)
Abbreviation ID := N (only parsing).

Definition in_range (x : ID) : Prop := x < 2 ^ 64.

(** Go strings are modelled as lists of characters. *)
Abbreviation gostring := (list ascii) (only parsing).

Definition SpanIDDelimiter : gostring := list_ascii_of_string "/".

Module SpanID.

Record t := Make { Trace : ID; Span : ID; Parent : ID }.

(** [func (id SpanID) IsRoot() bool] *)
Definition IsRoot (id : t) : bool := bool_decide (Parent id = 0).

Section Text.
(** [ID.String], used through the [%s] verbs of [fmt.Sprintf]. *)
Variable IDString : ID -> gostring.

(** [func (id SpanID) String() string] *)
Definition String (id : t) : gostring :=
  if bool_decide (Parent id = 0)
  then IDString (Trace id) ++ SpanIDDelimiter ++ IDString (Span id)
  else IDString (Trace id) ++ SpanIDDelimiter ++ IDString (Span id)
         ++ SpanIDDelimiter ++ IDString (Parent id).
End Text.

End SpanID.

Global Instance SpanID_eq_dec : EqDecision SpanID.t.
Proof. solve_decision. Defined.

(** [NewRootSpanID] and [NewSpanID]; the identifiers drawn from
    [generateID()] are taken as arguments. *)
Definition NewRootSpanID (g1 g2 : ID) : SpanID.t :=
  {| SpanID.Trace := g1; SpanID.Span := g2; SpanID.Parent := 0 |}.

Definition NewSpanID (parent : SpanID.t) (g : ID) : SpanID.t :=
  {| SpanID.Trace := SpanID.Trace parent;
     SpanID.Span := g;
     SpanID.Parent := SpanID.Span parent |}.

(** ** Spans, annotations and tree nodes *)

Record Annotation := { Key : gostring; Value : list Byte.byte }.

Module Span.
Record t := Make { ID : SpanID.t; Annotations : list Annotation }.
End Span.

(** A [*Trace] is an address in the heap of tree nodes. *)
Abbreviation ptr := nat (only parsing).

Module Trace.
Record t := Make { Span : Span.t; Sub : list ptr }.
End Trace.

(** ** Outcomes and the store monad *)

Inductive outcome (A : Type) : Type :=
| Ok (a : A)
| Panic (msg : string).
Arguments Ok {A} a.
Arguments Panic {A} msg.

Inductive error := ErrBadSpanID | ErrTraceNotFound.

(** [memoryStore]: the two maps of the Go struct, and the heap holding the
    [Trace] nodes the maps and the [Sub] slices point to.  The mutex is
    the reason every call runs to completion alone; [log] only prints. *)
Record memoryStore := MemoryStore {
  trace : gmap N ptr;
  span : gmap N (gmap N ptr);
  heap : list Trace.t
}.

Definition M (A : Type) : Type := memoryStore -> outcome (A * memoryStore).

Definition ret {A} (a : A) : M A := fun ms => Ok (a, ms).

Definition bind {A B} (m : M A) (k : A -> M B) : M B :=
  fun ms =>
    match m ms with
    | Ok (a, ms') => k a ms'
    | Panic msg => Panic msg
    end.

Definition panic {A} (msg : string) : M A := fun _ => Panic msg.

Declare Scope go_scope.
Delimit Scope go_scope with go.
Notation "'let*' x ':=' m 'in' k" := (bind m (fun x => k))
  (at level 10, x name, m at level 100, k at level 200) : go_scope.
Notation "m ';;;' k" := (bind m (fun _ => k))
  (at level 100, k at level 200, right associativity) : go_scope.

Local Open Scope go_scope.

(** *** Heap primitives *)

Definition nilDeref : string := "invalid memory address or nil pointer dereference".

(** [*p] *)
Definition deref (p : ptr) : M Trace.t :=
  fun ms => match heap ms !! p with
            | Some n => Ok (n, ms)
            | None => Panic nilDeref
            end.

(** [&Trace{...}] *)
Definition new (n : Trace.t) : M ptr :=
  fun ms => Ok (length (heap ms),
                MemoryStore (trace ms) (span ms) (heap ms ++ [n])).

Definition withSub (l : list ptr) (n : Trace.t) : Trace.t :=
  Trace.Make (Trace.Span n) l.

Definition withAnnotations (a : list Annotation) (n : Trace.t) : Trace.t :=
  Trace.Make (Span.Make (Span.ID (Trace.Span n)) a) (Trace.Sub n).

(** [*p = n] for the fields of an existing node *)
Definition store (p : ptr) (n : Trace.t) : M unit :=
  fun ms => match heap ms !! p with
            | Some _ => Ok (tt, MemoryStore (trace ms) (span ms) (<[p := n]> (heap ms)))
            | None => Panic nilDeref
            end.

(** [p.Sub = append(p.Sub, c)] *)
Definition appendSub (p c : ptr) : M unit :=
  let* n := deref p in store p (withSub (Trace.Sub n ++ [c]) n).

(** [p.Sub = l] *)
Definition setSub (p : ptr) (l : list ptr) : M unit :=
  let* n := deref p in store p (withSub l n).

(** [ms.span[t][k]]; indexing a missing inner map reads as absent. *)
Definition spanAt (ms : memoryStore) (t k : ID) : option ptr :=
  match span ms !! t with
  | Some m => m !! k
  | None => None
  end.

Definition getSpan (t k : ID) : M (option ptr) := fun ms => Ok (spanAt ms t k, ms).

Definition getTrace (t : ID) : M (option ptr) := fun ms => Ok (trace ms !! t, ms).

(** [ms.trace[t] = p] *)
Definition setTrace (t : ID) (p : ptr) : M unit :=
  fun ms => Ok (tt, MemoryStore (<[t := p]> (trace ms)) (span ms) (heap ms)).

(** [if _, present := ms.span[t]; !present { ms.span[t] = map[ID]*Trace{} }] *)
Definition initSpanMap (t : ID) : M unit :=
  fun ms => match span ms !! t with
            | Some _ => Ok (tt, ms)
            | None => Ok (tt, MemoryStore (trace ms) (<[t := ∅]> (span ms)) (heap ms))
            end.

(** [ms.span[t][k] = p] *)
Definition setSpan (t k : ID) (p : ptr) : M unit :=
  fun ms => match span ms !! t with
            | Some m => Ok (tt, MemoryStore (trace ms) (<[t := <[k := p]> m]> (span ms)) (heap ms))
            | None => Panic "assignment to entry in nil map"
            end.

(** [for _, c := range cs { ... }], threading the loop's local variable. *)
Fixpoint forRange {A} (cs : list ptr) (body : ptr -> A -> M A) (a : A) : M A :=
  match cs with
  | [] => ret a
  | c :: cs' => let* a' := body c a in forRange cs' body a'
  end.

(** ** The store *)

Definition NewMemoryStore : memoryStore := MemoryStore ∅ ∅ [].

Definition parentOf (n : Trace.t) : ID := SpanID.Parent (Span.ID (Trace.Span n)).
Definition spanOf (n : Trace.t) : ID := SpanID.Span (Span.ID (Trace.Span n)).
Definition traceOf (n : Trace.t) : ID := SpanID.Trace (Span.ID (Trace.Span n)).

(** [func (ms *memoryStore) insert(root, t *Trace)] *)
Definition insert (root t : ptr) : M unit :=
  let* nt := deref t in
  let* p := getSpan (traceOf nt) (parentOf nt) in
  match p with
  | Some p => appendSub p t
  | None => appendSub root t
  end.

(** [func (ms *memoryStore) reattachChildren(dst, src *Trace)] *)
Definition reattachChildren (dst src : ptr) : M unit :=
  if bool_decide (dst = src) then panic "dst == src" else
  let* nsrc := deref src in
  let* sub2 :=
    forRange (Trace.Sub nsrc)
      (fun c sub2 =>
         let* nc := deref c in
         let* ndst := deref dst in
         if bool_decide (parentOf nc = spanOf ndst)
         then appendSub dst c ;;; ret sub2
         else ret (sub2 ++ [c]))
      [] in
  setSub src sub2.

(** [func (ms *memoryStore) Collect(id SpanID, as ...Annotation) error];
    the result [None] is Go's [nil] error. *)
Definition Collect (id : SpanID.t) (as_ : list Annotation) : M (option error) :=
  (* Initialize span map if needed. *)
  initSpanMap (SpanID.Trace id) ;;;
  (* Create or update span. *)
  let* present := getSpan (SpanID.Trace id) (SpanID.Span id) in
  let* s :=
    match present with
    | None =>
        let* s := new (Trace.Make (Span.Make id as_) []) in
        setSpan (SpanID.Trace id) (SpanID.Span id) s ;;;
        ret s
    | Some s =>
        let* n := deref s in
        store s (withAnnotations (Span.Annotations (Trace.Span n) ++ as_) n) ;;;
        ret s
    end in
  (* Create trace tree if it doesn't already exist. *)
  let* present := getTrace (SpanID.Trace id) in
  let* root :=
    match present with
    | None => setTrace (SpanID.Trace id) s ;;; ret s
    | Some root => ret root
    end in
  (* If there's a temp root and we just collected the real root, fix up
     the tree. Or if we're the temp root's parents, set us up as the new
     temp root. *)
  let isRoot := SpanID.IsRoot id in
  let* nroot := deref root in
  let isTempRootParent := bool_decide (parentOf nroot = SpanID.Span id) in
  let* root :=
    if bool_decide (s ≠ root) && (isRoot || isTempRootParent) then
      let oldRoot := root in
      let root := s in
      setTrace (SpanID.Trace id) root ;;;
      reattachChildren root oldRoot ;;;
      insert root oldRoot ;;;
      (* Move the old temp root's temp children to the new root. *)
      let* nold := deref oldRoot in
      let* sub2 :=
        forRange (Trace.Sub nold)
          (fun c sub2 =>
             let* nc := deref c in
             let* nold := deref oldRoot in
             if bool_decide (parentOf nc ≠ spanOf nold)
             then appendSub root c ;;; ret sub2
             else ret (sub2 ++ [c]))
          [] in
      setSub oldRoot sub2 ;;;
      ret root
    else ret root in
  (* Insert into trace tree. *)
  (if negb isRoot && bool_decide (s ≠ root) then insert root s else ret tt) ;;;
  (* See if we're the parent of any of the root's temporary children. *)
  (if bool_decide (s ≠ root) then reattachChildren s root else ret tt) ;;;
  ret None.

(** [func (ms *memoryStore) Trace(id ID)], returning the node or the error. *)
Definition TraceOf (id : ID) (ms : memoryStore) : ptr + error :=
  match trace ms !! id with
  | Some t => inl t
  | None => inr ErrTraceNotFound
  end.

(** A run of [Collect] calls, stopping at the first abort. *)
Fixpoint CollectAll (calls : list (SpanID.t * list Annotation)) (ms : memoryStore)
  : outcome memoryStore :=
  match calls with
  | [] => Ok ms
  | (id, as_) :: rest =>
      match Collect id as_ ms with
      | Ok (_, ms') => CollectAll rest ms'
      | Panic msg => Panic msg
      end
  end.

(** * Reasoning about the heap *)

Definition setHeap (ms : memoryStore) (h : list Trace.t) : memoryStore :=
  MemoryStore (trace ms) (span ms) h.

Definition nodeID (n : Trace.t) : SpanID.t := Span.ID (Trace.Span n).

(** What a pointer designates: the span identifier, its parent field and
    the child slice of the node it points to. *)
Definition ID_at (h : list Trace.t) (p : ptr) : option SpanID.t := nodeID <$> h !! p.

Definition Parent_at (h : list Trace.t) (p : ptr) : option N :=
  SpanID.Parent <$> ID_at h p.

Definition Sub_at (h : list Trace.t) (p : ptr) : list ptr :=
  match h !! p with Some n => Trace.Sub n | None => [] end.

Definition addSub (l : list ptr) (p : ptr) (h : list Trace.t) : list Trace.t :=
  alter (fun n => withSub (Trace.Sub n ++ l) n) p h.

Definition putSub (l : list ptr) (p : ptr) (h : list Trace.t) : list Trace.t :=
  alter (withSub l) p h.

(** Moving the children of [src] that satisfy [P] to the end of [dst]'s
    child slice: what both scanning loops of [Collect] compute. *)
Definition moveSub (P : ptr -> Prop) `{forall c, Decision (P c)}
    (dst src : ptr) (h : list Trace.t) : list Trace.t :=
  putSub (filter (fun c => ~ P c) (Sub_at h src)) src
    (addSub (filter P (Sub_at h src)) dst h).

Section HeapLemmas.
Implicit Types (h : list Trace.t) (p q c : ptr) (l : list ptr).

Lemma insert_as_alter h p n (f : Trace.t -> Trace.t) :
  h !! p = Some n -> <[p := f n]> h = alter f p h.
Proof.
  intros Hp. apply list_eq. intros j.
  destruct (decide (p = j)) as [<-|Hne].
  - rewrite list_lookup_insert_eq by (eapply lookup_lt_Some; eauto).
    rewrite list_lookup_alter_eq, Hp. done.
  - rewrite list_lookup_insert_ne, list_lookup_alter_ne by done. done.
Qed.

Lemma ID_at_alter h p q (f : Trace.t -> Trace.t) :
  (forall n, nodeID (f n) = nodeID n) -> ID_at (alter f p h) q = ID_at h q.
Proof.
  intros Hf. unfold ID_at. destruct (decide (p = q)) as [<-|Hne].
  - rewrite list_lookup_alter_eq. destruct (h !! p); simpl; [by rewrite Hf | done].
  - by rewrite list_lookup_alter_ne.
Qed.

Lemma ID_at_addSub l p h q : ID_at (addSub l p h) q = ID_at h q.
Proof. apply ID_at_alter. done. Qed.

Lemma ID_at_putSub l p h q : ID_at (putSub l p h) q = ID_at h q.
Proof. apply ID_at_alter. done. Qed.

Lemma ID_at_moveSub P `{forall c, Decision (P c)} d s h q :
  ID_at (moveSub P d s h) q = ID_at h q.
Proof. unfold moveSub. by rewrite ID_at_putSub, ID_at_addSub. Qed.

Lemma ID_at_is_Some h p : is_Some (ID_at h p) <-> is_Some (h !! p).
Proof. unfold ID_at. by rewrite fmap_is_Some. Qed.

Lemma ID_at_Some h p i : ID_at h p = Some i -> exists n, h !! p = Some n /\ nodeID n = i.
Proof.
  unfold ID_at. destruct (h !! p) as [n|]; simpl; [|done].
  intros [= <-]. eauto.
Qed.

Lemma Sub_at_addSub l p h q :
  is_Some (h !! p) ->
  Sub_at (addSub l p h) q = if decide (q = p) then Sub_at h p ++ l else Sub_at h q.
Proof.
  intros [n Hn]. unfold Sub_at, addSub. case_decide as Hq.
  - subst q. rewrite list_lookup_alter_eq, Hn. done.
  - rewrite list_lookup_alter_ne by done. done.
Qed.

Lemma Sub_at_putSub l p h q :
  is_Some (h !! p) ->
  Sub_at (putSub l p h) q = if decide (q = p) then l else Sub_at h q.
Proof.
  intros [n Hn]. unfold Sub_at, putSub. case_decide as Hq.
  - subst q. rewrite list_lookup_alter_eq, Hn. done.
  - rewrite list_lookup_alter_ne by done. done.
Qed.

Lemma Sub_at_moveSub P `{forall c, Decision (P c)} d s h q :
  is_Some (h !! d) -> is_Some (h !! s) -> d <> s ->
  Sub_at (moveSub P d s h) q =
    if decide (q = s) then filter (fun c => ~ P c) (Sub_at h s)
    else if decide (q = d) then Sub_at h d ++ filter P (Sub_at h s)
    else Sub_at h q.
Proof.
  intros Hd Hs Hne. unfold moveSub.
  rewrite Sub_at_putSub, Sub_at_addSub; [done|done|].
  apply ID_at_is_Some. rewrite ID_at_addSub. by apply ID_at_is_Some.
Qed.

Lemma addSub_nil p h : addSub [] p h = h.
Proof.
  unfold addSub. apply list_alter_id. intros [sp_ sub]. unfold withSub. simpl.
  by rewrite app_nil_r.
Qed.

Lemma addSub_addSub l l' p h : addSub l' p (addSub l p h) = addSub (l ++ l') p h.
Proof.
  unfold addSub. rewrite list_alter_alter_eq. apply list_alter_ext; [|done].
  intros n _. unfold withSub. simpl. by rewrite app_assoc.
Qed.

Lemma length_addSub l p h : length (addSub l p h) = length h.
Proof. apply length_alter. Qed.

Lemma length_putSub l p h : length (putSub l p h) = length h.
Proof. apply length_alter. Qed.

Lemma length_moveSub P `{forall c, Decision (P c)} d s h :
  length (moveSub P d s h) = length h.
Proof. unfold moveSub. by rewrite length_putSub, length_addSub. Qed.

End HeapLemmas.

(** *** The primitives on valid pointers *)

Section Primitives.
Implicit Types (ms : memoryStore) (p q c : ptr).

Lemma deref_ok ms p n : heap ms !! p = Some n -> deref p ms = Ok (n, ms).
Proof. intros Hp. unfold deref. by rewrite Hp. Qed.

Lemma appendSub_ok ms p c :
  is_Some (heap ms !! p) ->
  appendSub p c ms = Ok (tt, setHeap ms (addSub [c] p (heap ms))).
Proof.
  intros [n Hn]. unfold appendSub, bind, store. rewrite (deref_ok _ _ _ Hn), Hn.
  unfold setHeap, addSub.
  by rewrite (insert_as_alter _ _ _ (fun n => withSub (Trace.Sub n ++ [c]) n) Hn).
Qed.

Lemma setSub_ok ms p l :
  is_Some (heap ms !! p) ->
  setSub p l ms = Ok (tt, setHeap ms (putSub l p (heap ms))).
Proof.
  intros [n Hn]. unfold setSub, bind, store. rewrite (deref_ok _ _ _ Hn), Hn.
  unfold setHeap, putSub. by rewrite (insert_as_alter _ _ _ (withSub l) Hn).
Qed.

(** A scanning loop that moves the elements satisfying [P] to [dst] and
    keeps the others in its local slice. *)
Lemma forRange_partition (P : ptr -> Prop) `{forall c, Decision (P c)}
    (body : ptr -> list ptr -> M (list ptr)) ms dst cs :
  (forall l acc c, c ∈ cs ->
      body c acc (setHeap ms (addSub l dst (heap ms))) =
        Ok (if decide (P c)
            then (acc, setHeap ms (addSub (l ++ [c]) dst (heap ms)))
            else (acc ++ [c], setHeap ms (addSub l dst (heap ms))))) ->
  forall l acc,
    forRange cs body acc (setHeap ms (addSub l dst (heap ms))) =
      Ok (acc ++ filter (fun c => ~ P c) cs,
          setHeap ms (addSub (l ++ filter P cs) dst (heap ms))).
Proof.
  induction cs as [|c cs IH]; intros Hbody l acc; simpl.
  - unfold ret. by rewrite !app_nil_r.
  - unfold bind. rewrite Hbody by left.
    rewrite filter_cons, (filter_cons P).
    destruct (decide (P c)) as [HP|HP].
    + rewrite decide_False by tauto.
      rewrite IH by (intros; apply Hbody; by right).
      by rewrite <- app_assoc.
    + rewrite decide_True by done.
      rewrite IH by (intros; apply Hbody; by right).
      by rewrite <- app_assoc.
Qed.

End Primitives.

Section Phases.
Implicit Types (ms : memoryStore) (p q c s r : ptr) (id : SpanID.t).

Lemma setHeap_heap ms : setHeap ms (heap ms) = ms.
Proof. by destruct ms. Qed.

Lemma lookup_addSub_same_ID l p h c n :
  h !! c = Some n ->
  exists n', addSub l p h !! c = Some n' /\ nodeID n' = nodeID n.
Proof.
  intros Hc. apply ID_at_Some. rewrite ID_at_addSub. unfold ID_at. by rewrite Hc.
Qed.

Lemma reattachChildren_ok ms dst src nd ns (P : ptr -> Prop) `{forall c, Decision (P c)} :
  dst <> src ->
  heap ms !! dst = Some nd ->
  heap ms !! src = Some ns ->
  (forall c, c ∈ Trace.Sub ns ->
     exists nc, heap ms !! c = Some nc /\ (P c <-> parentOf nc = spanOf nd)) ->
  reattachChildren dst src ms =
    Ok (tt, setHeap ms (moveSub P dst src (heap ms))).
Proof.
  intros Hne Hd Hs Hcs. unfold reattachChildren.
  rewrite bool_decide_eq_false_2 by done.
  unfold bind at 1. rewrite (deref_ok _ _ _ Hs).
  unfold bind at 1.
  rewrite <- (setHeap_heap ms) at 1. rewrite <- (addSub_nil dst (heap ms)) at 1.
  rewrite (forRange_partition P _ ms dst (Trace.Sub ns)).
  - rewrite !app_nil_l. rewrite setSub_ok.
    + unfold moveSub, setHeap, Sub_at. simpl. by rewrite Hs.
    + simpl. apply ID_at_is_Some. rewrite ID_at_addSub. apply ID_at_is_Some. eauto.
  - intros l acc c Hc. destruct (Hcs c Hc) as (nc & Hnc & HP).
    destruct (lookup_addSub_same_ID l dst _ _ _ Hnc) as (nc' & Hnc' & Hidc).
    destruct (lookup_addSub_same_ID l dst _ _ _ Hd) as (nd' & Hnd' & Hidd).
    unfold bind. rewrite (deref_ok (setHeap ms _) c nc') by done.
    rewrite (deref_ok (setHeap ms _) dst nd') by done.
    assert (parentOf nc' = parentOf nc) as -> by (unfold parentOf; fold (nodeID nc'); by rewrite Hidc).
    assert (spanOf nd' = spanOf nd) as -> by (unfold spanOf; fold (nodeID nd'); by rewrite Hidd).
    destruct (decide (P c)) as [HPc|HPc].
    + rewrite bool_decide_eq_true_2 by tauto.
      rewrite appendSub_ok by (simpl; eauto).
      unfold ret, setHeap. simpl. by rewrite addSub_addSub.
    + rewrite bool_decide_eq_false_2 by tauto. done.
Qed.

Lemma insert_ok ms root t nt :
  heap ms !! t = Some nt ->
  is_Some (heap ms !! default root (spanAt ms (traceOf nt) (parentOf nt))) ->
  insert root t ms =
    Ok (tt, setHeap ms (addSub [t] (default root (spanAt ms (traceOf nt) (parentOf nt))) (heap ms))).
Proof.
  intros Ht Hq. unfold insert, bind, getSpan. rewrite (deref_ok _ _ _ Ht).
  destruct (spanAt ms (traceOf nt) (parentOf nt)) as [p|]; simpl in *;
    by rewrite appendSub_ok.
Qed.

(** Everything [Collect] does once the node [s] of the span and the
    root [root] of its trace are known. *)
Definition link id (s root : ptr) : M (option error) :=
  let isRoot := SpanID.IsRoot id in
  let* nroot := deref root in
  let isTempRootParent := bool_decide (parentOf nroot = SpanID.Span id) in
  let* root :=
    if bool_decide (s ≠ root) && (isRoot || isTempRootParent) then
      let oldRoot := root in
      let root := s in
      setTrace (SpanID.Trace id) root ;;;
      reattachChildren root oldRoot ;;;
      insert root oldRoot ;;;
      let* nold := deref oldRoot in
      let* sub2 :=
        forRange (Trace.Sub nold)
          (fun c sub2 =>
             let* nc := deref c in
             let* nold := deref oldRoot in
             if bool_decide (parentOf nc ≠ spanOf nold)
             then appendSub root c ;;; ret sub2
             else ret (sub2 ++ [c]))
          [] in
      setSub oldRoot sub2 ;;;
      ret root
    else ret root in
  (if negb isRoot && bool_decide (s ≠ root) then insert root s else ret tt) ;;;
  (if bool_decide (s ≠ root) then reattachChildren s root else ret tt) ;;;
  ret None.

Lemma Collect_link id as_ :
  Collect id as_ =
    (initSpanMap (SpanID.Trace id) ;;;
     let* present := getSpan (SpanID.Trace id) (SpanID.Span id) in
     let* s :=
       match present with
       | None =>
           let* s := new (Trace.Make (Span.Make id as_) []) in
           setSpan (SpanID.Trace id) (SpanID.Span id) s ;;;
           ret s
       | Some s =>
           let* n := deref s in
           store s (withAnnotations (Span.Annotations (Trace.Span n) ++ as_) n) ;;;
           ret s
       end in
     let* present := getTrace (SpanID.Trace id) in
     let* root :=
       match present with
       | None => setTrace (SpanID.Trace id) s ;;; ret s
       | Some root => ret root
       end in
     link id s root).
Proof. reflexivity. Qed.

(** The scan of the demoted root's children. *)
Lemma moveTemp_ok ms root oldRoot nr nold (P : ptr -> Prop) `{forall c, Decision (P c)} :
  root <> oldRoot ->
  heap ms !! root = Some nr ->
  heap ms !! oldRoot = Some nold ->
  (forall c, c ∈ Trace.Sub nold ->
     exists nc, heap ms !! c = Some nc /\ (P c <-> parentOf nc <> spanOf nold)) ->
  forRange (Trace.Sub nold)
    (fun c sub2 =>
       let* nc := deref c in
       let* nold := deref oldRoot in
       if bool_decide (parentOf nc ≠ spanOf nold)
       then appendSub root c ;;; ret sub2
       else ret (sub2 ++ [c])) [] ms =
    Ok (filter (fun c => ~ P c) (Trace.Sub nold),
        setHeap ms (addSub (filter P (Trace.Sub nold)) root (heap ms))).
Proof.
  intros Hne Hr Ho Hcs.
  rewrite <- (setHeap_heap ms) at 1. rewrite <- (addSub_nil root (heap ms)) at 1.
  rewrite (forRange_partition P _ ms root (Trace.Sub nold)); [done|].
  intros l acc c Hc. destruct (Hcs c Hc) as (nc & Hnc & HP).
  destruct (lookup_addSub_same_ID l root _ _ _ Hnc) as (nc' & Hnc' & Hidc).
  destruct (lookup_addSub_same_ID l root _ _ _ Ho) as (no' & Hno' & Hido).
  unfold bind. rewrite (deref_ok (setHeap ms _) c nc') by done.
  rewrite (deref_ok (setHeap ms _) oldRoot no') by done.
  assert (parentOf nc' = parentOf nc) as -> by (unfold parentOf; fold (nodeID nc'); by rewrite Hidc).
  assert (spanOf no' = spanOf nold) as -> by (unfold spanOf; fold (nodeID no'); by rewrite Hido).
  destruct (decide (P c)) as [HPc|HPc].
  - rewrite bool_decide_eq_true_2 by tauto.
    rewrite appendSub_ok by (simpl; apply ID_at_is_Some; rewrite ID_at_addSub;
                             apply ID_at_is_Some; eauto).
    unfold ret, setHeap. simpl. by rewrite addSub_addSub.
  - rewrite bool_decide_eq_false_2 by tauto. done.
Qed.

End Phases.

(** The heap after a promotion of [s] over the old root [r]: the children
    of [r] that name [s] as parent move to [s], [r] is inserted under its
    recorded parent [q] (or under [s]), and the children parked under [r]
    move to [s]. *)
Definition promoteH (h : list Trace.t) (s r : ptr) (ks kr : N) (q : ptr) : list Trace.t :=
  moveSub (fun c => Parent_at h c <> Some kr) s r
    (addSub [r] q
       (moveSub (fun c => Parent_at h c = Some ks) s r h)).

(** The heap after an ordinary insertion of [s] under [q], with root [r]. *)
Definition insertH (h : list Trace.t) (s r : ptr) (ks : N) (q : ptr) : list Trace.t :=
  moveSub (fun c => Parent_at h c = Some ks) s r (addSub [s] q h).

Ltac mstep := unfold bind at 1; cbv beta.

Section Link.
Implicit Types (ms : memoryStore) (p q c s r : ptr) (id : SpanID.t).

Lemma Parent_at_Some h c nc : h !! c = Some nc -> Parent_at h c = Some (parentOf nc).
Proof. intros Hc. unfold Parent_at, ID_at. by rewrite Hc. Qed.

Lemma lookup_same_ID h h' c n :
  (forall p, ID_at h' p = ID_at h p) ->
  h !! c = Some n ->
  exists n', h' !! c = Some n' /\ nodeID n' = nodeID n.
Proof.
  intros Hid Hc. apply ID_at_Some. rewrite Hid. unfold ID_at. by rewrite Hc.
Qed.

Lemma Sub_at_Some h p n : h !! p = Some n -> Sub_at h p = Trace.Sub n.
Proof. intros Hp. unfold Sub_at. by rewrite Hp. Qed.

Lemma link_self id s ms ns :
  heap ms !! s = Some ns -> link id s s ms = Ok (None, ms).
Proof.
  intros Hs. unfold link. mstep. rewrite (deref_ok _ _ _ Hs).
  rewrite (bool_decide_eq_false_2 (s ≠ s)) by tauto. cbn [andb].
  mstep. unfold ret at 1. cbv beta iota.
  rewrite (bool_decide_eq_false_2 (s ≠ s)) by tauto. rewrite andb_false_r.
  reflexivity.
Qed.

Lemma link_promote id s r ms ns nr q :
  s <> r ->
  heap ms !! s = Some ns ->
  heap ms !! r = Some nr ->
  SpanID.Parent id = 0 \/ parentOf nr = SpanID.Span id ->
  (forall c, c ∈ Trace.Sub nr -> is_Some (heap ms !! c)) ->
  q = default s (spanAt ms (traceOf nr) (parentOf nr)) ->
  is_Some (heap ms !! q) ->
  link id s r ms =
    Ok (None, MemoryStore (<[SpanID.Trace id := s]> (trace ms)) (span ms)
                (promoteH (heap ms) s r (spanOf ns) (spanOf nr) q)).
Proof.
  intros Hne Hs Hr Hpromo Hcs Hq Hqv. unfold link. mstep.
  rewrite (deref_ok _ _ _ Hr). cbv beta iota.
  rewrite (bool_decide_eq_true_2 (s ≠ r)) by done.
  assert (SpanID.IsRoot id || bool_decide (parentOf nr = SpanID.Span id) = true) as ->.
  { unfold SpanID.IsRoot. destruct Hpromo as [Hp|Hp].
    - by rewrite (bool_decide_eq_true_2 _ Hp).
    - rewrite (bool_decide_eq_true_2 _ Hp). by rewrite orb_true_r. }
  cbn [andb]. mstep. mstep. unfold setTrace at 1. cbv beta iota.
  set (P1 := fun c => Parent_at (heap ms) c = Some (spanOf ns)).
  set (P2 := fun c => Parent_at (heap ms) c <> Some (spanOf nr)).
  mstep. rewrite (reattachChildren_ok _ s r ns nr P1); [|done|done|done|].
  2:{ simpl. intros c Hc. destruct (Hcs c Hc) as [nc Hnc]. exists nc. split; [done|].
      unfold P1. rewrite (Parent_at_Some _ _ _ Hnc). split; congruence. }
  cbv beta iota. unfold setHeap at 1. cbn [trace span heap].
  set (h1 := moveSub P1 s r (heap ms)).
  assert (Hid1 : forall p, ID_at h1 p = ID_at (heap ms) p)
    by (intros; apply ID_at_moveSub).
  destruct (lookup_same_ID _ h1 _ _ Hid1 Hr) as (nr1 & Hr1 & Hidr1).
  assert (Hpar1 : parentOf nr1 = parentOf nr) by (unfold parentOf; fold (nodeID nr1); by rewrite Hidr1).
  assert (Htr1 : traceOf nr1 = traceOf nr) by (unfold traceOf; fold (nodeID nr1); by rewrite Hidr1).
  mstep. rewrite (insert_ok _ s r nr1); [|done|].
  2:{ simpl. unfold spanAt. simpl. fold (spanAt ms (traceOf nr1) (parentOf nr1)).
      rewrite Hpar1, Htr1, <- Hq. apply ID_at_is_Some. rewrite Hid1.
      by apply ID_at_is_Some. }
  cbv beta iota. unfold setHeap at 1. cbn [trace span heap].
  replace (spanAt _ (traceOf nr1) (parentOf nr1)) with (spanAt ms (traceOf nr) (parentOf nr))
    by (by rewrite Hpar1, Htr1).
  rewrite <- Hq.
  set (h2 := addSub [r] q h1).
  assert (Hid2 : forall p, ID_at h2 p = ID_at (heap ms) p)
    by (intros; unfold h2; by rewrite ID_at_addSub, Hid1).
  destruct (lookup_same_ID _ h2 _ _ Hid2 Hr) as (nr2 & Hr2 & Hidr2).
  destruct (lookup_same_ID _ h2 _ _ Hid2 Hs) as (ns2 & Hs2 & Hids2).
  assert (Hsp2 : spanOf nr2 = spanOf nr) by (unfold spanOf; fold (nodeID nr2); by rewrite Hidr2).
  mstep. rewrite (deref_ok _ r nr2) by done. cbv beta iota.
  mstep. rewrite (moveTemp_ok _ s r ns2 nr2 P2); [|done|done|done|].
  2:{ simpl. intros c Hc.
      assert (is_Some (heap ms !! c)) as [nc Hnc].
      { rewrite <- (Sub_at_Some _ _ _ Hr2) in Hc. unfold h2 in Hc.
        rewrite Sub_at_addSub in Hc
          by (apply ID_at_is_Some; rewrite Hid1; by apply ID_at_is_Some).
        assert (c ∈ Sub_at h1 r -> is_Some (heap ms !! c)) as Hin.
        { unfold h1. rewrite Sub_at_moveSub by eauto. rewrite decide_True by done.
          intros [_ Hc']%list_elem_of_filter. apply Hcs.
          by rewrite <- (Sub_at_Some _ _ _ Hr). }
        case_decide as Hrq; [|by apply Hin]. rewrite <- Hrq in Hc.
        apply elem_of_app in Hc as [Hc|Hc]; [by apply Hin|].
        apply list_elem_of_singleton in Hc as ->. eauto. }
      destruct (lookup_same_ID _ h2 _ _ Hid2 Hnc) as (nc2 & Hc2 & Hidc2).
      exists nc2. split; [done|]. unfold P2. rewrite (Parent_at_Some _ _ _ Hnc).
      assert (parentOf nc2 = parentOf nc) as -> by (unfold parentOf; fold (nodeID nc2); by rewrite Hidc2).
      rewrite Hsp2. split; congruence. }
  cbv beta iota. mstep. rewrite setSub_ok.
  2:{ simpl. apply ID_at_is_Some. rewrite ID_at_addSub, Hid2. apply ID_at_is_Some. eauto. }
  cbv beta iota. unfold ret at 1. mstep.
  rewrite (bool_decide_eq_false_2 (s ≠ s)) by tauto. rewrite andb_false_r.
  unfold bind, ret. cbv beta iota. unfold setHeap. cbn [trace span heap].
  rewrite <- (Sub_at_Some _ _ _ Hr2). reflexivity.
Qed.

Lemma link_insert id s r ms ns nr q :
  s <> r ->
  heap ms !! s = Some ns ->
  heap ms !! r = Some nr ->
  SpanID.Parent id <> 0 ->
  parentOf nr <> SpanID.Span id ->
  (forall c, c ∈ Trace.Sub nr -> is_Some (heap ms !! c)) ->
  q = default r (spanAt ms (traceOf ns) (parentOf ns)) ->
  is_Some (heap ms !! q) ->
  link id s r ms = Ok (None, setHeap ms (insertH (heap ms) s r (spanOf ns) q)).
Proof.
  intros Hne Hs Hr Hp0 Hpk Hcs Hq Hqv. unfold link. mstep.
  rewrite (deref_ok _ _ _ Hr). cbv beta iota.
  rewrite (bool_decide_eq_true_2 (s ≠ r)) by done.
  unfold SpanID.IsRoot.
  rewrite (bool_decide_eq_false_2 (SpanID.Parent id = 0)) by done.
  rewrite (bool_decide_eq_false_2 (parentOf nr = SpanID.Span id)) by done.
  cbn [andb orb negb]. mstep. unfold ret at 1. cbv beta iota.
  rewrite (bool_decide_eq_true_2 (s ≠ r)) by done.
  mstep. rewrite (insert_ok _ r s ns); [|done|by rewrite <- Hq].
  rewrite <- Hq. cbv beta iota.
  set (P := fun c => Parent_at (heap ms) c = Some (spanOf ns)).
  set (h1 := addSub [s] q (heap ms)).
  assert (Hid1 : forall p, ID_at h1 p = ID_at (heap ms) p)
    by (intros; apply ID_at_addSub).
  destruct (lookup_same_ID _ h1 _ _ Hid1 Hr) as (nr1 & Hr1 & Hidr1).
  destruct (lookup_same_ID _ h1 _ _ Hid1 Hs) as (ns1 & Hs1 & Hids1).
  assert (Hsp1 : spanOf ns1 = spanOf ns) by (unfold spanOf; fold (nodeID ns1); by rewrite Hids1).
  mstep. rewrite (reattachChildren_ok _ s r ns1 nr1 P); [|done|done|done|].
  2:{ simpl. intros c Hc.
      assert (is_Some (heap ms !! c)) as [nc Hnc].
      { rewrite <- (Sub_at_Some _ _ _ Hr1) in Hc. unfold h1 in Hc.
        rewrite Sub_at_addSub in Hc by done.
        rewrite (Sub_at_Some _ _ _ Hr) in Hc.
        case_decide as Hrq; [|by apply Hcs].
        rewrite <- Hrq in Hc. rewrite (Sub_at_Some _ _ _ Hr) in Hc.
        apply elem_of_app in Hc as [Hc|Hc]; [by apply Hcs|].
        apply list_elem_of_singleton in Hc as ->. eauto. }
      destruct (lookup_same_ID _ h1 _ _ Hid1 Hnc) as (nc1 & Hc1 & Hidc1).
      exists nc1. split; [done|]. unfold P. rewrite (Parent_at_Some _ _ _ Hnc).
      assert (parentOf nc1 = parentOf nc) as -> by (unfold parentOf; fold (nodeID nc1); by rewrite Hidc1).
      rewrite Hsp1. split; congruence. }
  cbv beta iota. reflexivity.
Qed.

End Link.

(** *** The first half of [Collect]: locating or creating the node *)

Definition newNode (id : SpanID.t) (as_ : list Annotation) : Trace.t :=
  Trace.Make (Span.Make id as_) [].

(** The store once a node for a span not seen before is allocated and
    registered in the span map of its trace. *)
Definition allocated (id : SpanID.t) (as_ : list Annotation) (ms : memoryStore) : memoryStore :=
  MemoryStore (trace ms)
    (<[SpanID.Trace id :=
         <[SpanID.Span id := length (heap ms)]> (default ∅ (span ms !! SpanID.Trace id))]>
       (span ms))
    (heap ms ++ [newNode id as_]).

(** The store once the annotations are appended to the existing node. *)
Definition annotated (s : ptr) (as_ : list Annotation) (ms : memoryStore) : memoryStore :=
  setHeap ms
    (alter (fun n => withAnnotations (Span.Annotations (Trace.Span n) ++ as_) n) s (heap ms)).

Definition rooted (t : N) (s : ptr) (ms : memoryStore) : memoryStore :=
  MemoryStore (<[t := s]> (trace ms)) (span ms) (heap ms).

Section Locate.
Implicit Types (ms : memoryStore) (p q c s r : ptr) (id : SpanID.t).

Lemma Collect_fresh id as_ ms :
  spanAt ms (SpanID.Trace id) (SpanID.Span id) = None ->
  Collect id as_ ms =
    match trace ms !! SpanID.Trace id with
    | None => link id (length (heap ms)) (length (heap ms))
                (rooted (SpanID.Trace id) (length (heap ms)) (allocated id as_ ms))
    | Some r => link id (length (heap ms)) r (allocated id as_ ms)
    end.
Proof.
  intros Hfresh. rewrite Collect_link. mstep. unfold initSpanMap, spanAt in *.
  destruct (span ms !! SpanID.Trace id) as [m|] eqn:Hm; cbv beta iota.
  - mstep. unfold getSpan, spanAt. rewrite Hm, Hfresh. cbv beta iota.
    mstep. mstep. unfold new at 1. cbv beta iota. mstep.
    unfold setSpan at 1. cbn [trace span heap]. rewrite Hm. cbv beta iota.
    unfold ret at 1. mstep. unfold getTrace at 1. cbn [trace span heap].
    unfold allocated. rewrite Hm. cbn [default].
    destruct (trace ms !! SpanID.Trace id); cbv beta iota; mstep; [done|].
    mstep. unfold setTrace. cbn [trace span heap]. done.
  - mstep. unfold getSpan, spanAt. cbn [trace span heap].
    rewrite lookup_insert_eq, lookup_empty. cbv beta iota.
    mstep. mstep. unfold new at 1. cbv beta iota. mstep.
    unfold setSpan at 1. cbn [trace span heap]. rewrite lookup_insert_eq.
    cbv beta iota. rewrite insert_insert_eq.
    unfold ret at 1. mstep. unfold getTrace at 1. cbn [trace span heap].
    unfold allocated. rewrite Hm. cbn [default].
    destruct (trace ms !! SpanID.Trace id); cbv beta iota; mstep; [done|].
    mstep. unfold setTrace. cbn [trace span heap]. done.
Qed.

Lemma Collect_present id as_ ms s n :
  spanAt ms (SpanID.Trace id) (SpanID.Span id) = Some s ->
  heap ms !! s = Some n ->
  Collect id as_ ms =
    match trace ms !! SpanID.Trace id with
    | None => link id s s (rooted (SpanID.Trace id) s (annotated s as_ ms))
    | Some r => link id s r (annotated s as_ ms)
    end.
Proof.
  intros Hpresent Hs. rewrite Collect_link. mstep. unfold initSpanMap.
  pose proof Hpresent as Hp. unfold spanAt in Hp.
  destruct (span ms !! SpanID.Trace id) as [m|] eqn:Hm; [|done]. cbv beta iota.
  mstep. unfold getSpan. rewrite Hpresent. cbv beta iota.
  mstep. mstep. rewrite (deref_ok _ _ _ Hs). cbv beta iota. mstep.
  unfold store at 1. rewrite Hs. cbv beta iota. unfold ret at 1.
  rewrite (insert_as_alter _ _ _
             (fun n => withAnnotations (Span.Annotations (Trace.Span n) ++ as_) n) Hs).
  mstep. unfold getTrace at 1. cbn [trace span heap].
  destruct (trace ms !! SpanID.Trace id); cbv beta iota; mstep; [done|].
  mstep. unfold setTrace. cbn [trace span heap]. done.
Qed.

Lemma spanAt_allocated id as_ ms t k :
  spanAt (allocated id as_ ms) t k =
    if decide (t = SpanID.Trace id /\ k = SpanID.Span id)
    then Some (length (heap ms)) else spanAt ms t k.
Proof.
  unfold spanAt, allocated. cbn [span].
  destruct (decide (t = SpanID.Trace id)) as [->|Ht].
  - rewrite lookup_insert_eq. destruct (decide (k = SpanID.Span id)) as [->|Hk].
    + rewrite lookup_insert_eq. by rewrite decide_True.
    + rewrite lookup_insert_ne by done. rewrite decide_False by tauto.
      destruct (span ms !! SpanID.Trace id); [done|]. simpl. apply lookup_empty.
  - rewrite lookup_insert_ne by done. by rewrite decide_False by tauto.
Qed.

End Locate.

(** * Validity of the store

    The facts that hold of every store built by [Collect] calls, whatever
    the calls: the span map and the heap describe the same nodes, roots
    and children are nodes of the trace they are filed under. *)

Definition sub_ok (h : list Trace.t) : Prop :=
  forall p c i, ID_at h p = Some i -> c ∈ Sub_at h p ->
    exists j, ID_at h c = Some j /\ SpanID.Trace j = SpanID.Trace i.

Record valid (ms : memoryStore) : Prop := Valid {
  v_span : forall t k p, spanAt ms t k = Some p ->
    exists i, ID_at (heap ms) p = Some i /\ SpanID.Trace i = t /\ SpanID.Span i = k;
  v_reg : forall p i, ID_at (heap ms) p = Some i ->
    spanAt ms (SpanID.Trace i) (SpanID.Span i) = Some p;
  v_root : forall t r, trace ms !! t = Some r ->
    exists i, ID_at (heap ms) r = Some i /\ SpanID.Trace i = t;
  v_dom : forall t k, trace ms !! t = None -> spanAt ms t k = None;
  v_sub : sub_ok (heap ms)
}.

(** A change of the heap that keeps every node's identifier and only
    rewrites child slices of nodes of trace [t]. *)
Definition touches (t : N) (h h' : list Trace.t) : Prop :=
  (forall p, ID_at h' p = ID_at h p) /\
  (forall p i, ID_at h p = Some i -> SpanID.Trace i <> t -> h' !! p = h !! p).

Section Validity.
Implicit Types (ms : memoryStore) (h : list Trace.t) (p q c s r : ptr) (id : SpanID.t).

Lemma ID_at_app_new h n p :
  ID_at (h ++ [n]) p = if decide (p = length h) then Some (nodeID n) else ID_at h p.
Proof.
  unfold ID_at. case_decide as Hp.
  - subst p. rewrite lookup_app_r by lia. by rewrite Nat.sub_diag.
  - destruct (decide (p < length h)%nat).
    + by rewrite lookup_app_l.
    + rewrite !lookup_ge_None_2; [done|lia|]. rewrite length_app. simpl. lia.
Qed.

Lemma Sub_at_app_new h id as_ p : Sub_at (h ++ [newNode id as_]) p = Sub_at h p.
Proof.
  unfold Sub_at. destruct (decide (p < length h)%nat).
  - by rewrite lookup_app_l.
  - rewrite (lookup_ge_None_2 h) by lia.
    destruct (decide (p = length h)) as [->|].
    + rewrite lookup_app_r by lia. by rewrite Nat.sub_diag.
    + rewrite lookup_ge_None_2; [done|]. rewrite length_app. simpl. lia.
Qed.

Lemma ID_at_lt h p i : ID_at h p = Some i -> (p < length h)%nat.
Proof. intros (n & Hn & _)%ID_at_Some. by eapply lookup_lt_Some. Qed.

Lemma touches_refl t h : touches t h h.
Proof. by split. Qed.

Lemma touches_trans t h1 h2 h3 : touches t h1 h2 -> touches t h2 h3 -> touches t h1 h3.
Proof.
  intros [Hid1 Hf1] [Hid2 Hf2]. split.
  - intros p. by rewrite Hid2, Hid1.
  - intros p i Hp Ht. rewrite (Hf2 p i), (Hf1 p i); try done. by rewrite Hid1.
Qed.

Lemma touches_alter t h p i (f : Trace.t -> Trace.t) :
  (forall n, nodeID (f n) = nodeID n) ->
  ID_at h p = Some i -> SpanID.Trace i = t ->
  touches t h (alter f p h).
Proof.
  intros Hf Hp Ht. split.
  - intros q. by apply ID_at_alter.
  - intros q j Hq Hj. apply list_lookup_alter_ne. intros ->. congruence.
Qed.

Lemma touches_addSub t h l p i :
  ID_at h p = Some i -> SpanID.Trace i = t -> touches t h (addSub l p h).
Proof. intros. by eapply touches_alter. Qed.

Lemma touches_putSub t h l p i :
  ID_at h p = Some i -> SpanID.Trace i = t -> touches t h (putSub l p h).
Proof. intros. by eapply touches_alter. Qed.

Lemma touches_moveSub t h P `{forall c, Decision (P c)} d s i j :
  ID_at h d = Some i -> SpanID.Trace i = t ->
  ID_at h s = Some j -> SpanID.Trace j = t ->
  touches t h (moveSub P d s h).
Proof.
  intros Hd Hi Hs Hj. unfold moveSub.
  apply (touches_trans t h (addSub (filter P (Sub_at h s)) d h)).
  - by eapply touches_addSub.
  - eapply touches_putSub; [|done]. by rewrite ID_at_addSub.
Qed.

Lemma sub_ok_addSub h l p i :
  sub_ok h -> ID_at h p = Some i ->
  (forall c, c ∈ l -> exists j, ID_at h c = Some j /\ SpanID.Trace j = SpanID.Trace i) ->
  sub_ok (addSub l p h).
Proof.
  intros Hok Hp Hl y c iy. rewrite !ID_at_addSub.
  rewrite Sub_at_addSub by (apply ID_at_is_Some; eauto).
  intros Hy Hc. case_decide as Hyp.
  - subst y. assert (iy = i) as -> by congruence.
    apply elem_of_app in Hc as [Hc|Hc]; [by eapply Hok|by apply Hl].
  - by eapply Hok.
Qed.

Lemma sub_ok_moveSub h P `{forall c, Decision (P c)} d s i j :
  sub_ok h -> ID_at h d = Some i -> ID_at h s = Some j ->
  SpanID.Trace i = SpanID.Trace j -> d <> s ->
  sub_ok (moveSub P d s h).
Proof.
  intros Hok Hd Hs Hij Hne y c iy. rewrite !ID_at_moveSub.
  rewrite Sub_at_moveSub by (try apply ID_at_is_Some; eauto).
  intros Hy Hc. repeat case_decide; subst.
  - apply list_elem_of_filter in Hc as [_ Hc]. by eapply Hok.
  - assert (iy = i) as -> by congruence.
    apply elem_of_app in Hc as [Hc|Hc]; [by eapply Hok|].
    apply list_elem_of_filter in Hc as [_ Hc].
    destruct (Hok _ _ _ Hs Hc) as (jc & ? & ?). exists jc. split; [done|congruence].
  - by eapply Hok.
Qed.

Lemma valid_setHeap ms h' :
  valid ms -> (forall p, ID_at h' p = ID_at (heap ms) p) -> sub_ok h' ->
  valid (setHeap ms h').
Proof.
  intros [V1 V2 V3 V4 V5] Hid Hok. split; simpl.
  - intros t k p Hp. rewrite Hid. by apply V1.
  - intros p i. rewrite Hid. apply V2.
  - intros t r Hr. rewrite Hid. by apply V3.
  - done.
  - done.
Qed.

Lemma valid_rooted ms t s i :
  valid ms -> ID_at (heap ms) s = Some i -> SpanID.Trace i = t ->
  valid (rooted t s ms).
Proof.
  intros [V1 V2 V3 V4 V5] Hs Hi. split; simpl; try done.
  - intros t' r. destruct (decide (t = t')) as [<-|Hne].
    + rewrite lookup_insert_eq. intros [= <-]. eauto.
    + rewrite lookup_insert_ne by done. apply V3.
  - intros t' k. destruct (decide (t = t')) as [<-|Hne].
    + by rewrite lookup_insert_eq.
    + rewrite lookup_insert_ne by done. apply V4.
Qed.

Lemma sub_ok_app_new h id as_ : sub_ok h -> sub_ok (h ++ [newNode id as_]).
Proof.
  intros Hok p c i. rewrite Sub_at_app_new, !ID_at_app_new. intros Hp Hc.
  assert (ID_at h p <> None) as Hpv.
  { unfold Sub_at, ID_at in *. destruct (h !! p); [done|]. by apply elem_of_nil in Hc. }
  case_decide as Hpl.
  { subst p. exfalso. apply Hpv. unfold ID_at. by rewrite lookup_ge_None_2. }
  destruct (Hok _ _ _ Hp Hc) as (j & Hj & Hji). exists j. split; [|done].
  rewrite decide_False; [done|].
  apply ID_at_lt in Hj. lia.
Qed.

Lemma valid_allocated ms id as_ :
  valid ms ->
  spanAt ms (SpanID.Trace id) (SpanID.Span id) = None ->
  is_Some (trace ms !! SpanID.Trace id) ->
  valid (allocated id as_ ms).
Proof.
  intros [V1 V2 V3 V4 V5] Hfresh [r Hr]. split.
  - intros t k p. rewrite spanAt_allocated. unfold allocated. cbn [heap].
    rewrite ID_at_app_new. case_decide as Hk.
    + destruct Hk as [-> ->]. intros [= <-]. rewrite decide_True by done. eauto.
    + intros Hp. destruct (V1 _ _ _ Hp) as (i & Hi & ?). exists i. split; [|done].
      rewrite decide_False; [done|]. apply ID_at_lt in Hi. lia.
  - intros p i. rewrite spanAt_allocated. unfold allocated. cbn [heap].
    rewrite ID_at_app_new. case_decide as Hp.
    + intros [= <-]. rewrite decide_True by done. by subst.
    + intros Hi. rewrite decide_False; [by apply V2|].
      intros [Ht Hk]. apply V2 in Hi. congruence.
  - intros t r' Hr'. unfold allocated in *. cbn [heap trace] in *.
    destruct (V3 _ _ Hr') as (i & Hi & ?). exists i. split; [|done].
    rewrite ID_at_app_new, decide_False; [done|]. apply ID_at_lt in Hi. lia.
  - intros t k Ht. rewrite spanAt_allocated. unfold allocated in Ht. cbn [trace] in Ht.
    rewrite decide_False; [by apply V4|]. intros [-> _]. congruence.
  - unfold allocated. cbn [heap]. by apply sub_ok_app_new.
Qed.

Lemma valid_first ms id as_ :
  valid ms ->
  trace ms !! SpanID.Trace id = None ->
  valid (rooted (SpanID.Trace id) (length (heap ms)) (allocated id as_ ms)).
Proof.
  intros [V1 V2 V3 V4 V5] Hnone.
  pose proof (V4 _ (SpanID.Span id) Hnone) as Hfresh. split.
  - intros t k p. unfold rooted, spanAt. cbn [span heap].
    fold (spanAt (allocated id as_ ms) t k). rewrite spanAt_allocated.
    unfold allocated. cbn [heap]. rewrite ID_at_app_new. case_decide as Hk.
    + destruct Hk as [-> ->]. intros [= <-]. rewrite decide_True by done. eauto.
    + intros Hp. destruct (V1 _ _ _ Hp) as (i & Hi & ?). exists i. split; [|done].
      rewrite decide_False; [done|]. apply ID_at_lt in Hi. lia.
  - intros p i. unfold rooted, spanAt. cbn [span heap].
    fold (spanAt (allocated id as_ ms) (SpanID.Trace i) (SpanID.Span i)).
    rewrite spanAt_allocated. unfold allocated. cbn [heap].
    rewrite ID_at_app_new. case_decide as Hp.
    + intros [= <-]. rewrite decide_True by done. by subst.
    + intros Hi. rewrite decide_False; [by apply V2|].
      intros [Ht Hk]. apply V2 in Hi. congruence.
  - intros t r'. unfold rooted, allocated. cbn [heap trace].
    rewrite ID_at_app_new. destruct (decide (SpanID.Trace id = t)) as [<-|Hne].
    + rewrite lookup_insert_eq. intros [= <-]. rewrite decide_True by done. eauto.
    + rewrite lookup_insert_ne by done. intros Hr'.
      destruct (V3 _ _ Hr') as (i & Hi & ?). exists i. split; [|done].
      rewrite decide_False; [done|]. apply ID_at_lt in Hi. lia.
  - intros t k. unfold rooted, spanAt. cbn [span trace].
    fold (spanAt (allocated id as_ ms) t k). rewrite spanAt_allocated.
    destruct (decide (SpanID.Trace id = t)) as [<-|Hne].
    + by rewrite lookup_insert_eq.
    + rewrite lookup_insert_ne by done. intros Ht.
      rewrite decide_False; [by apply V4|]. intros [-> _]. done.
  - unfold rooted, allocated. cbn [heap]. by apply sub_ok_app_new.
Qed.

Lemma ID_at_annotated s as_ ms p : ID_at (heap (annotated s as_ ms)) p = ID_at (heap ms) p.
Proof. unfold annotated. simpl. by apply ID_at_alter. Qed.

Lemma Sub_at_annotated s as_ ms p : Sub_at (heap (annotated s as_ ms)) p = Sub_at (heap ms) p.
Proof.
  unfold annotated, Sub_at. simpl. destruct (decide (s = p)) as [<-|Hne].
  - rewrite list_lookup_alter_eq. by destruct (heap ms !! s).
  - by rewrite list_lookup_alter_ne.
Qed.

Lemma valid_annotated ms s as_ : valid ms -> valid (annotated s as_ ms).
Proof.
  intros Hv. apply valid_setHeap; [done|apply ID_at_annotated|].
  intros p c i. pose proof (ID_at_annotated s as_ ms) as Hid.
  pose proof (Sub_at_annotated s as_ ms) as Hsub. unfold annotated in Hid, Hsub.
  cbn [heap setHeap] in Hid, Hsub. rewrite !Hid, Hsub.
  intros Hp Hc. destruct (v_sub _ Hv _ _ _ Hp Hc) as (j & ? & ?). by exists j.
Qed.

End Validity.

(** * What a [Collect] call does *)

(** The outcome of the second half of [Collect], by cases. *)
Inductive linked (id : SpanID.t) (s r : ptr) (ms : memoryStore) : memoryStore -> Prop :=
| linked_self :
    s = r -> linked id s r ms ms
| linked_promote is_ ir q :
    s <> r ->
    ID_at (heap ms) s = Some is_ ->
    ID_at (heap ms) r = Some ir ->
    SpanID.Parent id = 0 \/ SpanID.Parent ir = SpanID.Span id ->
    q = default s (spanAt ms (SpanID.Trace ir) (SpanID.Parent ir)) ->
    linked id s r ms
      (MemoryStore (<[SpanID.Trace id := s]> (trace ms)) (span ms)
         (promoteH (heap ms) s r (SpanID.Span is_) (SpanID.Span ir) q))
| linked_insert is_ ir q :
    s <> r ->
    ID_at (heap ms) s = Some is_ ->
    ID_at (heap ms) r = Some ir ->
    SpanID.Parent id <> 0 ->
    SpanID.Parent ir <> SpanID.Span id ->
    q = default r (spanAt ms (SpanID.Trace is_) (SpanID.Parent is_)) ->
    linked id s r ms (setHeap ms (insertH (heap ms) s r (SpanID.Span is_) q)).

(** The outcome of the first half: the node [s] of the span, the root
    [r] of its trace, and the store [ms1] they are found in. *)
Inductive located (id : SpanID.t) (as_ : list Annotation) (ms : memoryStore)
  : ptr -> ptr -> memoryStore -> Prop :=
| located_first :
    trace ms !! SpanID.Trace id = None ->
    located id as_ ms (length (heap ms)) (length (heap ms))
      (rooted (SpanID.Trace id) (length (heap ms)) (allocated id as_ ms))
| located_new r :
    trace ms !! SpanID.Trace id = Some r ->
    spanAt ms (SpanID.Trace id) (SpanID.Span id) = None ->
    located id as_ ms (length (heap ms)) r (allocated id as_ ms)
| located_old s r :
    trace ms !! SpanID.Trace id = Some r ->
    spanAt ms (SpanID.Trace id) (SpanID.Span id) = Some s ->
    located id as_ ms s r (annotated s as_ ms).

Section CollectCases.
Implicit Types (ms : memoryStore) (h : list Trace.t) (p q c s r : ptr) (id : SpanID.t).

Lemma valid_target ms t k (d : ptr) i :
  valid ms -> ID_at (heap ms) d = Some i -> SpanID.Trace i = t ->
  exists j, ID_at (heap ms) (default d (spanAt ms t k)) = Some j /\ SpanID.Trace j = t.
Proof.
  intros Hv Hd Hi. destruct (spanAt ms t k) as [p|] eqn:Hp; simpl; [|eauto].
  destruct (v_span _ Hv _ _ _ Hp) as (j & ? & ? & ?). eauto.
Qed.

Lemma link_linked id s r ms is_ :
  valid ms ->
  trace ms !! SpanID.Trace id = Some r ->
  ID_at (heap ms) s = Some is_ ->
  SpanID.Trace is_ = SpanID.Trace id ->
  exists ms', link id s r ms = Ok (None, ms') /\ linked id s r ms ms'.
Proof.
  intros Hv Hr His Hts.
  destruct (v_root _ Hv _ _ Hr) as (ir & Hir & Htr).
  destruct (ID_at_Some _ _ _ His) as (ns & Hns & Hids).
  destruct (ID_at_Some _ _ _ Hir) as (nr & Hnr & Hidr).
  assert (Hkids : forall c, c ∈ Trace.Sub nr -> is_Some (heap ms !! c)).
  { intros c Hc. rewrite <- (Sub_at_Some _ _ _ Hnr) in Hc.
    destruct (v_sub _ Hv _ _ _ Hir Hc) as (j & Hj & _).
    apply ID_at_is_Some. eauto. }
  destruct (decide (s = r)) as [->|Hne].
  { exists ms. split; [by eapply link_self|by constructor]. }
  destruct (decide (SpanID.Parent id = 0 \/ SpanID.Parent ir = SpanID.Span id)) as [Hpromo|Hno].
  - eexists. split.
    + eapply (link_promote id s r ms ns nr); try done.
      * unfold parentOf. fold (nodeID nr). by rewrite Hidr.
      * destruct (valid_target ms (traceOf nr) (parentOf nr) s is_ Hv His) as (j & Hj & _).
        { unfold traceOf. fold (nodeID nr). rewrite Hidr. congruence. }
        apply ID_at_is_Some. eauto.
    + unfold spanOf, traceOf, parentOf. fold (nodeID ns) (nodeID nr).
      rewrite Hids, Hidr. by eapply linked_promote.
  - eexists. split.
    + eapply (link_insert id s r ms ns nr); try done.
      * tauto.
      * unfold parentOf. fold (nodeID nr). rewrite Hidr. tauto.
      * destruct (valid_target ms (traceOf ns) (parentOf ns) r ir Hv Hir) as (j & Hj & _).
        { unfold traceOf. fold (nodeID ns). rewrite Hids. congruence. }
        apply ID_at_is_Some. eauto.
    + unfold spanOf, traceOf, parentOf. fold (nodeID ns).
      rewrite Hids. eapply linked_insert; try done; tauto.
Qed.

Lemma located_valid id as_ ms s r ms1 :
  valid ms -> located id as_ ms s r ms1 ->
  valid ms1 /\ trace ms1 !! SpanID.Trace id = Some r /\
  exists is_, ID_at (heap ms1) s = Some is_ /\
              SpanID.Trace is_ = SpanID.Trace id /\ SpanID.Span is_ = SpanID.Span id.
Proof.
  intros Hv Hloc. destruct Hloc as [Hnone|r Hr Hfresh|s r Hr Hs].
  - split; [by apply valid_first|]. split.
    + unfold rooted. simpl. by rewrite lookup_insert_eq.
    + exists id. unfold rooted, allocated. simpl. rewrite ID_at_app_new.
      by rewrite decide_True.
  - split; [by apply valid_allocated|]. split; [done|].
    exists id. unfold allocated. simpl. rewrite ID_at_app_new. by rewrite decide_True.
  - split; [by apply valid_annotated|]. split; [done|].
    destruct (v_span _ Hv _ _ _ Hs) as (i & Hi & ? & ?). exists i.
    by rewrite ID_at_annotated.
Qed.

Lemma Collect_located id as_ ms :
  valid ms ->
  exists s r ms1, located id as_ ms s r ms1 /\ Collect id as_ ms = link id s r ms1.
Proof.
  intros Hv.
  destruct (spanAt ms (SpanID.Trace id) (SpanID.Span id)) as [s|] eqn:Hs.
  - destruct (v_span _ Hv _ _ _ Hs) as (i & Hi & _).
    destruct (ID_at_Some _ _ _ Hi) as (n & Hn & _).
    rewrite (Collect_present id as_ ms s n Hs Hn).
    destruct (trace ms !! SpanID.Trace id) as [r|] eqn:Hr.
    + exists s, r, (annotated s as_ ms). split; [by constructor|done].
    + rewrite (v_dom _ Hv _ _ Hr) in Hs. done.
  - rewrite (Collect_fresh id as_ ms Hs).
    destruct (trace ms !! SpanID.Trace id) as [r|] eqn:Hr.
    + eexists _, _, _. split; [by eapply located_new|done].
    + eexists _, _, _. split; [by eapply located_first|done].
Qed.

(** [Collect] never aborts on a valid store and returns the [nil] error. *)
Lemma Collect_cases id as_ ms :
  valid ms ->
  exists s r ms1 ms',
    Collect id as_ ms = Ok (None, ms') /\
    located id as_ ms s r ms1 /\ linked id s r ms1 ms'.
Proof.
  intros Hv. destruct (Collect_located id as_ ms Hv) as (s & r & ms1 & Hloc & ->).
  destruct (located_valid _ _ _ _ _ _ Hv Hloc) as (Hv1 & Hr1 & is_ & His & Hts & _).
  destruct (link_linked id s r ms1 is_ Hv1 Hr1 His Hts) as (ms' & Hlink & Hlinked).
  exists s, r, ms1, ms'. done.
Qed.

End CollectCases.

Section Preservation.
Implicit Types (ms : memoryStore) (h : list Trace.t) (p q c s r : ptr) (id : SpanID.t).

Lemma ID_at_promoteH h s r ks kr q p : ID_at (promoteH h s r ks kr q) p = ID_at h p.
Proof. unfold promoteH. by rewrite ID_at_moveSub, ID_at_addSub, ID_at_moveSub. Qed.

Lemma ID_at_insertH h s r ks q p : ID_at (insertH h s r ks q) p = ID_at h p.
Proof. unfold insertH. by rewrite ID_at_moveSub, ID_at_addSub. Qed.

Lemma sub_ok_promoteH h s r ks kr q is_ ir iq :
  sub_ok h -> s <> r ->
  ID_at h s = Some is_ -> ID_at h r = Some ir -> ID_at h q = Some iq ->
  SpanID.Trace is_ = SpanID.Trace ir -> SpanID.Trace iq = SpanID.Trace ir ->
  sub_ok (promoteH h s r ks kr q).
Proof.
  intros Hok Hne Hs Hr Hq Hsr Hqr. unfold promoteH.
  eapply (sub_ok_moveSub _ _ s r is_ ir); try done.
  - eapply (sub_ok_addSub _ _ q iq).
    + by eapply (sub_ok_moveSub _ _ s r is_ ir).
    + by rewrite ID_at_moveSub.
    + intros c ->%list_elem_of_singleton. rewrite ID_at_moveSub. eauto.
  - by rewrite ID_at_addSub, ID_at_moveSub.
  - by rewrite ID_at_addSub, ID_at_moveSub.
Qed.

Lemma sub_ok_insertH h s r ks q is_ ir iq :
  sub_ok h -> s <> r ->
  ID_at h s = Some is_ -> ID_at h r = Some ir -> ID_at h q = Some iq ->
  SpanID.Trace is_ = SpanID.Trace ir -> SpanID.Trace iq = SpanID.Trace ir ->
  sub_ok (insertH h s r ks q).
Proof.
  intros Hok Hne Hs Hr Hq Hsr Hqr. unfold insertH.
  eapply (sub_ok_moveSub _ _ s r is_ ir); try done.
  - eapply (sub_ok_addSub _ _ q iq); try done.
    intros c ->%list_elem_of_singleton. exists is_. split; [done|congruence].
  - by rewrite ID_at_addSub.
  - by rewrite ID_at_addSub.
Qed.

Lemma touches_promoteH t h s r ks kr q is_ ir iq :
  ID_at h s = Some is_ -> ID_at h r = Some ir -> ID_at h q = Some iq ->
  SpanID.Trace is_ = t -> SpanID.Trace ir = t -> SpanID.Trace iq = t ->
  touches t h (promoteH h s r ks kr q).
Proof.
  intros Hs Hr Hq Hts Htr Htq. unfold promoteH.
  set (h1 := moveSub _ s r h). set (h2 := addSub [r] q h1).
  assert (touches t h h1) as H1 by (by eapply (touches_moveSub t h _ s r is_ ir)).
  assert (touches t h1 h2) as H2
    by (eapply touches_addSub; [|done]; unfold h1; by rewrite ID_at_moveSub).
  apply (touches_trans t h h1); [done|]. apply (touches_trans t h1 h2); [done|].
  eapply (touches_moveSub t h2 _ s r is_ ir); try done;
    unfold h2, h1; by rewrite ID_at_addSub, ID_at_moveSub.
Qed.

Lemma touches_insertH t h s r ks q is_ ir iq :
  ID_at h s = Some is_ -> ID_at h r = Some ir -> ID_at h q = Some iq ->
  SpanID.Trace is_ = t -> SpanID.Trace ir = t -> SpanID.Trace iq = t ->
  touches t h (insertH h s r ks q).
Proof.
  intros Hs Hr Hq Hts Htr Htq. unfold insertH.
  apply (touches_trans t h (addSub [s] q h)); [by eapply touches_addSub|].
  eapply (touches_moveSub t _ _ s r is_ ir); try done; by rewrite ID_at_addSub.
Qed.

(** What every [linked] step has in common. *)
Lemma linked_inv id s r ms ms' is_ :
  valid ms ->
  trace ms !! SpanID.Trace id = Some r ->
  ID_at (heap ms) s = Some is_ ->
  SpanID.Trace is_ = SpanID.Trace id ->
  linked id s r ms ms' ->
  valid ms' /\ span ms' = span ms /\
  touches (SpanID.Trace id) (heap ms) (heap ms') /\
  (trace ms' = trace ms \/ trace ms' = <[SpanID.Trace id := s]> (trace ms)).
Proof.
  intros Hv Hr His Hts Hl.
  destruct (v_root _ Hv _ _ Hr) as (ir & Hir & Htr).
  destruct Hl as [->|is' ir' q Hne His' Hir' Hpromo Hq|is' ir' q Hne His' Hir' Hp0 Hpk Hq].
  - split; [done|]. split; [done|]. split; [apply touches_refl|by left].
  - assert (is' = is_) as -> by congruence. assert (ir' = ir) as -> by congruence.
    destruct (valid_target ms (SpanID.Trace ir) (SpanID.Parent ir) s is_ Hv His)
      as (iq & Hiq & Htq); [congruence|]. rewrite <- Hq in Hiq.
    split; [|split; [done|split; [|by right]]].
    + change (valid (rooted (SpanID.Trace id) s
                (setHeap ms (promoteH (heap ms) s r (SpanID.Span is_) (SpanID.Span ir) q)))).
      eapply (valid_rooted _ _ _ is_); [|simpl; by rewrite ID_at_promoteH|done].
      apply valid_setHeap; [done|intros; apply ID_at_promoteH|].
      eapply sub_ok_promoteH; try done; [by apply v_sub|congruence].
    + simpl. eapply touches_promoteH; try done; congruence.
  - assert (is' = is_) as -> by congruence. assert (ir' = ir) as -> by congruence.
    destruct (valid_target ms (SpanID.Trace is_) (SpanID.Parent is_) r ir Hv Hir)
      as (iq & Hiq & Htq); [congruence|]. rewrite <- Hq in Hiq.
    split; [|split; [done|split; [|by left]]].
    + apply valid_setHeap; [done|intros; apply ID_at_insertH|].
      eapply sub_ok_insertH; try done; [by apply v_sub|congruence..].
    + simpl. eapply touches_insertH; try done; congruence.
Qed.

Theorem Collect_valid id as_ ms :
  valid ms -> exists ms', Collect id as_ ms = Ok (None, ms') /\ valid ms'.
Proof.
  intros Hv. destruct (Collect_cases id as_ ms Hv) as (s & r & ms1 & ms' & Hc & Hloc & Hl).
  destruct (located_valid _ _ _ _ _ _ Hv Hloc) as (Hv1 & Hr1 & is_ & His & Hts & _).
  exists ms'. split; [done|]. by eapply linked_inv.
Qed.

Lemma valid_NewMemoryStore : valid NewMemoryStore.
Proof.
  split; unfold NewMemoryStore, spanAt, ID_at, sub_ok, Sub_at; simpl.
  - intros t k p. by rewrite lookup_empty.
  - done.
  - intros t r. by rewrite lookup_empty.
  - intros t k _. by rewrite lookup_empty.
  - done.
Qed.

Lemma CollectAll_valid calls ms :
  valid ms -> exists ms', CollectAll calls ms = Ok ms' /\ valid ms'.
Proof.
  revert ms. induction calls as [|[id as_] calls IH]; intros ms Hv; simpl.
  - eauto.
  - destruct (Collect_valid id as_ ms Hv) as (ms1 & -> & Hv1). by apply IH.
Qed.


End Preservation.

(** * The shape of the trees *)

Section Membership.
Implicit Types (h : list Trace.t) (p q c s d x y : ptr) (l : list ptr).

Lemma elem_of_Sub_addSub h l p y x :
  is_Some (h !! p) ->
  x ∈ Sub_at (addSub l p h) y <-> x ∈ Sub_at h y \/ (y = p /\ x ∈ l).
Proof.
  intros Hp. rewrite Sub_at_addSub by done. case_decide as Hy.
  - subst y. rewrite elem_of_app. tauto.
  - tauto.
Qed.

Lemma elem_of_Sub_moveSub h P `{forall c, Decision (P c)} d s y x :
  is_Some (h !! d) -> is_Some (h !! s) -> d <> s ->
  x ∈ Sub_at (moveSub P d s h) y <->
    (y = s /\ x ∈ Sub_at h s /\ ~ P x) \/
    (y = d /\ (x ∈ Sub_at h d \/ (x ∈ Sub_at h s /\ P x))) \/
    (y <> s /\ y <> d /\ x ∈ Sub_at h y).
Proof.
  intros Hd Hs Hne. rewrite Sub_at_moveSub by done. repeat case_decide; subst.
  - rewrite list_elem_of_filter. intuition congruence.
  - rewrite elem_of_app, list_elem_of_filter. intuition congruence.
  - intuition congruence.
Qed.

Lemma NoDup_Sub_addSub h c p y :
  is_Some (h !! p) ->
  NoDup (Sub_at h y) -> (y = p -> c ∉ Sub_at h p) ->
  NoDup (Sub_at (addSub [c] p h) y).
Proof.
  intros Hp Hnd Hc. rewrite Sub_at_addSub by done. case_decide as Hy; [|done].
  subst y. apply NoDup_app. split; [done|]. split; [|apply NoDup_singleton].
  intros x Hx ->%list_elem_of_singleton. by apply Hc.
Qed.

Lemma NoDup_Sub_moveSub h P `{forall c, Decision (P c)} d s y :
  is_Some (h !! d) -> is_Some (h !! s) -> d <> s ->
  NoDup (Sub_at h y) ->
  (y = d -> NoDup (Sub_at h s) /\
            forall x, x ∈ Sub_at h d -> x ∈ Sub_at h s -> False) ->
  NoDup (Sub_at (moveSub P d s h) y).
Proof.
  intros Hd Hs Hne Hnd Hy. rewrite Sub_at_moveSub by done. repeat case_decide; subst.
  - by apply NoDup_filter.
  - destruct Hy as [Hnds Hdisj]; [done|]. apply NoDup_app. split; [done|].
    split; [|by apply NoDup_filter].
    intros x Hx [_ Hx']%list_elem_of_filter. eauto.
  - done.
Qed.

Lemma Parent_at_ID h x X : ID_at h x = Some X -> Parent_at h x = Some (SpanID.Parent X).
Proof. intros Hx. unfold Parent_at. by rewrite Hx. Qed.

End Membership.

(** Among the nodes [T], nobody is listed twice: neither in one child
    slice nor in two. *)
Definition uniq (T : ptr -> Prop) (h : list Trace.t) : Prop :=
  (forall y, T y -> NoDup (Sub_at h y)) /\
  (forall x y y', T y -> T y' -> x ∈ Sub_at h y -> x ∈ Sub_at h y' -> y = y').

Section Uniq.
Variable T : ptr -> Prop.
Implicit Types (h : list Trace.t) (p q c s d x y : ptr).

Lemma uniq_addSub h c p :
  is_Some (h !! p) -> T p ->
  (forall y, T y -> c ∉ Sub_at h y) ->
  uniq T h -> uniq T (addSub [c] p h).
Proof.
  intros Hp HTp Hc [Hnd Hun]. split.
  - intros y Hy. apply NoDup_Sub_addSub; auto.
  - intros x y y' Hy Hy'. rewrite !elem_of_Sub_addSub by done.
    rewrite list_elem_of_singleton.
    intros [Hx|[-> ->]] [Hx'|[-> Hxc]]; subst; try done.
    + by eapply Hun.
    + by destruct (Hc y Hy).
    + by destruct (Hc y' Hy').
Qed.

Lemma uniq_moveSub h P `{forall c, Decision (P c)} d s :
  is_Some (h !! d) -> is_Some (h !! s) -> d <> s -> T d -> T s ->
  uniq T h -> uniq T (moveSub P d s h).
Proof.
  intros Hd Hs Hne HTd HTs [Hnd Hun]. split.
  - intros y Hy. apply NoDup_Sub_moveSub; auto.
    intros ->. split; [auto|]. intros x Hx Hx'. apply Hne. by eapply Hun.
  - intros x y y' Hy Hy'. rewrite !elem_of_Sub_moveSub by done.
    intros [(-> & Hx & HP)|[(-> & [Hx|[Hx HP]])|(? & ? & Hx)]]
           [(-> & Hx' & HP')|[(-> & [Hx'|[Hx' HP']])|(? & ? & Hx')]];
      try done;
      try (exfalso; apply Hne; by eapply Hun);
      try (exfalso; apply Hne; symmetry; by eapply Hun);
      try (by eapply Hun);
      try (exfalso; assert (y' = s) by (by eapply Hun); done);
      try (exfalso; assert (y' = d) by (by eapply Hun); done);
      try (exfalso; assert (y = s) by (by eapply Hun); done);
      try (exfalso; assert (y = d) by (by eapply Hun); done).
Qed.

End Uniq.

(** The per-trace shape: in the tree of trace [t], a node other than the
    root sits under the node of its recorded parent when that parent has
    been collected and under the root otherwise, exactly once; the root
    is nobody's child. *)
Record tree_inv (t : N) (ms : memoryStore) : Prop := TreeInv {
  ti_child : forall r x X y,
    trace ms !! t = Some r ->
    ID_at (heap ms) x = Some X -> SpanID.Trace X = t ->
    (x ∈ Sub_at (heap ms) y <->
       x <> r /\ default r (spanAt ms t (SpanID.Parent X)) = y);
  ti_nodup : forall y Y,
    ID_at (heap ms) y = Some Y -> SpanID.Trace Y = t -> NoDup (Sub_at (heap ms) y)
}.

Section Core.
(** The heap [h1] right after the node [s] of a span not seen before
    is allocated in a trace whose root is [r]; [sp] is the span map of
    the trace before the call. *)
Variables (h1 : list Trace.t) (t k : N) (s r : ptr) (sp : N -> option ptr).
Variables (id ir : SpanID.t).
Hypothesis Hsr : s <> r.
Hypothesis Hs : ID_at h1 s = Some id.
Hypothesis Hidt : SpanID.Trace id = t.
Hypothesis Hidk : SpanID.Span id = k.
Hypothesis Hr : ID_at h1 r = Some ir.
Hypothesis Hirt : SpanID.Trace ir = t.
Hypothesis Hspk : sp k = None.
Hypothesis Hsp1 : forall k' p, sp k' = Some p ->
  p <> s /\ exists i, ID_at h1 p = Some i /\ SpanID.Trace i = t /\ SpanID.Span i = k'.
Hypothesis Hsp2 : forall p i, ID_at h1 p = Some i -> SpanID.Trace i = t -> p <> s ->
  sp (SpanID.Span i) = Some p.
Hypothesis Hsub0 : forall x X y, ID_at h1 x = Some X -> SpanID.Trace X = t ->
  (x ∈ Sub_at h1 y <-> x <> s /\ x <> r /\ default r (sp (SpanID.Parent X)) = y).
Hypothesis Hnd0 : forall y Y, ID_at h1 y = Some Y -> SpanID.Trace Y = t -> NoDup (Sub_at h1 y).
Hypothesis Hok0 : sub_ok h1.

Definition sp' (k' : N) : option ptr := if decide (k' = k) then Some s else sp k'.

Lemma core_valid_s : is_Some (h1 !! s).
Proof. apply ID_at_is_Some. eauto. Qed.

Lemma core_valid_r : is_Some (h1 !! r).
Proof. apply ID_at_is_Some. eauto. Qed.

Lemma core_target d : d = s \/ d = r -> forall k', is_Some (h1 !! default d (sp' k')).
Proof.
  intros Hd k'. unfold sp'. case_decide; simpl; [apply core_valid_s|].
  destruct (sp k') as [p|] eqn:Hp; simpl.
  - destruct (Hsp1 _ _ Hp) as (_ & i & Hi & _). apply ID_at_is_Some. eauto.
  - destruct Hd as [->| ->]; [apply core_valid_s|apply core_valid_r].
Qed.

Lemma core_sp_r : sp (SpanID.Span ir) = Some r.
Proof. apply Hsp2; [done|done|]. intros ->. done. Qed.

(** Members of child slices of this trace are nodes of this trace. *)
Lemma core_member x y Y :
  ID_at h1 y = Some Y -> SpanID.Trace Y = t -> x ∈ Sub_at h1 y ->
  exists X, ID_at h1 x = Some X /\ SpanID.Trace X = t.
Proof.
  intros Hy HY Hx. destruct (Hok0 _ _ _ Hy Hx) as (X & HX & Ht). exists X.
  split; [done|congruence].
Qed.

Let P1 : ptr -> Prop := fun c => Parent_at h1 c = Some k.
Let P2 : ptr -> Prop := fun c => Parent_at h1 c <> Some (SpanID.Span ir).

Lemma core_sp_Some x X p :
  ID_at h1 x = Some X -> sp (SpanID.Parent X) = Some p ->
  p <> s /\ SpanID.Parent X <> k /\ (p = r <-> SpanID.Parent X = SpanID.Span ir).
Proof.
  intros HX Hp. destruct (Hsp1 _ _ Hp) as (Hps & i & Hi & Hit & Hik).
  split; [done|]. split; [congruence|]. split.
  - intros ->. congruence.
  - intros Heq. rewrite Heq, core_sp_r in Hp. congruence.
Qed.

Lemma core_sp_None X :
  sp (SpanID.Parent X) = None -> SpanID.Parent X <> SpanID.Span ir.
Proof. intros Hn Heq. rewrite Heq, core_sp_r in Hn. done. Qed.

Lemma core_promote_child q x X y :
  q = default s (sp' (SpanID.Parent ir)) ->
  ID_at h1 x = Some X -> SpanID.Trace X = t ->
  (x ∈ Sub_at (promoteH h1 s r k (SpanID.Span ir) q) y <->
     x <> s /\ default s (sp' (SpanID.Parent X)) = y).
Proof.
  intros Hq HX HXt. unfold promoteH. fold P1 P2.
  set (ha := moveSub P1 s r h1). set (hb := addSub [r] q ha).
  pose proof core_valid_s as Hvs. pose proof core_valid_r as Hvr.
  assert (Hida : forall p, ID_at ha p = ID_at h1 p) by (intros; apply ID_at_moveSub).
  assert (Hidb : forall p, ID_at hb p = ID_at h1 p)
    by (intros; unfold hb; by rewrite ID_at_addSub).
  assert (Hva : forall p, is_Some (h1 !! p) -> is_Some (ha !! p))
    by (intros p Hp; apply ID_at_is_Some; rewrite Hida; by apply ID_at_is_Some).
  assert (Hvb : forall p, is_Some (h1 !! p) -> is_Some (hb !! p))
    by (intros p Hp; apply ID_at_is_Some; rewrite Hidb; by apply ID_at_is_Some).
  assert (Hvq : is_Some (h1 !! q)) by (rewrite Hq; apply core_target; by left).
  rewrite (elem_of_Sub_moveSub hb P2 s r) by auto.
  unfold hb. rewrite !(elem_of_Sub_addSub ha) by auto.
  unfold ha. rewrite !(elem_of_Sub_moveSub h1 P1 s r) by auto.
  rewrite !(Hsub0 x X) by done.
  unfold P1, P2. rewrite (Parent_at_ID _ _ _ HX).
  rewrite list_elem_of_singleton.
  assert (x = r -> X = ir) as Hxr by (intros ->; congruence).
  assert (x = s -> X = id) as Hxs by (intros ->; congruence).
  pose proof core_sp_r as Hspr.
  pose proof (core_sp_Some x X) as HSome. pose proof (core_sp_None X) as HNone.
  subst q. unfold sp'.
  destruct (decide (x = s)) as [Hx1|Hx1]; [intuition congruence|].
  destruct (decide (x = r)) as [Hx2|Hx2].
  - subst x. specialize (Hxr eq_refl). subst X.
    destruct (decide (SpanID.Parent ir = SpanID.Span ir));
    repeat case_decide; destruct (sp (SpanID.Parent ir)) as [p|] eqn:Hp; simpl;
      try specialize (HSome p HX eq_refl); try specialize (HNone eq_refl);
      try (destruct (decide (p = r)); destruct (decide (y = p)));
      destruct (decide (y = s)); destruct (decide (y = r));
      intuition congruence.
  - destruct (decide (SpanID.Parent X = SpanID.Span ir));
    repeat case_decide; destruct (sp (SpanID.Parent X)) as [p|] eqn:Hp; simpl;
      try specialize (HSome p HX eq_refl); try specialize (HNone eq_refl);
      try (destruct (decide (p = r)); destruct (decide (y = p)));
      destruct (decide (y = s)); destruct (decide (y = r));
      intuition congruence.
Qed.

Lemma core_insert_child q x X y :
  q = default r (sp' (SpanID.Parent id)) ->
  ID_at h1 x = Some X -> SpanID.Trace X = t ->
  (x ∈ Sub_at (insertH h1 s r k q) y <->
     x <> r /\ default r (sp' (SpanID.Parent X)) = y).
Proof.
  intros Hq HX HXt. unfold insertH. fold P1.
  set (ha := addSub [s] q h1).
  pose proof core_valid_s as Hvs. pose proof core_valid_r as Hvr.
  assert (Hida : forall p, ID_at ha p = ID_at h1 p) by (intros; apply ID_at_addSub).
  assert (Hva : forall p, is_Some (h1 !! p) -> is_Some (ha !! p))
    by (intros p Hp; apply ID_at_is_Some; rewrite Hida; by apply ID_at_is_Some).
  assert (Hvq : is_Some (h1 !! q)) by (rewrite Hq; apply core_target; by right).
  rewrite (elem_of_Sub_moveSub ha P1 s r) by auto.
  unfold ha. rewrite !(elem_of_Sub_addSub h1) by auto.
  rewrite !(Hsub0 x X) by done.
  unfold P1. rewrite (Parent_at_ID _ _ _ HX).
  rewrite list_elem_of_singleton.
  assert (x = r -> X = ir) as Hxr by (intros ->; congruence).
  assert (x = s -> X = id) as Hxs by (intros ->; congruence).
  pose proof core_sp_r as Hspr.
  pose proof (core_sp_Some x X) as HSome. pose proof (core_sp_None X) as HNone.
  subst q. unfold sp'.
  destruct (decide (x = r)) as [Hx2|Hx2]; [intuition congruence|].
  destruct (decide (x = s)) as [Hx1|Hx1].
  - subst x. specialize (Hxs eq_refl). subst X.
    repeat case_decide; destruct (sp (SpanID.Parent id)) as [p|] eqn:Hp; simpl;
      try specialize (HSome p HX eq_refl); try specialize (HNone eq_refl);
      try (destruct (decide (p = r)); destruct (decide (y = p)));
      destruct (decide (y = s)); destruct (decide (y = r));
      intuition congruence.
  - repeat case_decide; destruct (sp (SpanID.Parent X)) as [p|] eqn:Hp; simpl;
      try specialize (HSome p HX eq_refl); try specialize (HNone eq_refl);
      try (destruct (decide (p = r)); destruct (decide (y = p)));
      destruct (decide (y = s)); destruct (decide (y = r));
      intuition congruence.
Qed.

Definition inT (y : ptr) : Prop := exists Y, ID_at h1 y = Some Y /\ SpanID.Trace Y = t.

Lemma core_inT_s : inT s.
Proof. exists id. done. Qed.

Lemma core_inT_r : inT r.
Proof. exists ir. done. Qed.

Lemma core_inT_target d : d = s \/ d = r -> forall k', inT (default d (sp' k')).
Proof.
  intros Hd k'. unfold sp'. case_decide; simpl; [apply core_inT_s|].
  destruct (sp k') as [p|] eqn:Hp; simpl.
  - destruct (Hsp1 _ _ Hp) as (_ & i & Hi & Hit & _). by exists i.
  - destruct Hd as [->| ->]; [apply core_inT_s|apply core_inT_r].
Qed.

Lemma core_uniq0 : uniq inT h1.
Proof.
  split.
  - intros y (Y & HY & HYt). by eapply Hnd0.
  - intros x y y' (Y & HY & HYt) (Y' & HY' & HYt') Hx Hx'.
    destruct (core_member x y Y HY HYt Hx) as (X & HX & HXt).
    apply (Hsub0 x X) in Hx, Hx'; try done. destruct Hx as (_ & _ & <-).
    by destruct Hx' as (_ & _ & <-).
Qed.

Lemma core_root_free y : inT y -> r ∉ Sub_at h1 y.
Proof.
  intros _ Hin. apply (Hsub0 r ir) in Hin; [|done..]. by destruct Hin as (_ & ? & _).
Qed.

Lemma core_new_free y : inT y -> s ∉ Sub_at h1 y.
Proof.
  intros _ Hin. apply (Hsub0 s id) in Hin; [|done..]. by destruct Hin as (? & _).
Qed.

Lemma core_promote_uniq q :
  q = default s (sp' (SpanID.Parent ir)) ->
  uniq inT (promoteH h1 s r k (SpanID.Span ir) q).
Proof.
  intros Hq. unfold promoteH. fold P1 P2.
  set (ha := moveSub P1 s r h1). set (hb := addSub [r] q ha).
  pose proof core_valid_s as Hvs. pose proof core_valid_r as Hvr.
  assert (Hida : forall p, ID_at ha p = ID_at h1 p) by (intros; apply ID_at_moveSub).
  assert (Hidb : forall p, ID_at hb p = ID_at h1 p)
    by (intros; unfold hb; by rewrite ID_at_addSub).
  assert (Hva : forall p, is_Some (h1 !! p) -> is_Some (ha !! p))
    by (intros p Hp; apply ID_at_is_Some; rewrite Hida; by apply ID_at_is_Some).
  assert (Hvb : forall p, is_Some (h1 !! p) -> is_Some (hb !! p))
    by (intros p Hp; apply ID_at_is_Some; rewrite Hidb; by apply ID_at_is_Some).
  assert (Hvq : is_Some (h1 !! q)) by (rewrite Hq; apply core_target; by left).
  assert (HTq : inT q) by (rewrite Hq; apply core_inT_target; by left).
  apply uniq_moveSub; auto using core_inT_s, core_inT_r.
  apply uniq_addSub; auto.
  - intros y Hy. unfold ha. rewrite (elem_of_Sub_moveSub h1 P1 s r) by auto.
    pose proof (core_root_free s core_inT_s). pose proof (core_root_free r core_inT_r).
    pose proof (core_root_free y Hy). tauto.
  - apply uniq_moveSub; auto using core_inT_s, core_inT_r, core_uniq0.
Qed.

Lemma core_insert_uniq q :
  q = default r (sp' (SpanID.Parent id)) ->
  uniq inT (insertH h1 s r k q).
Proof.
  intros Hq. unfold insertH. fold P1.
  set (ha := addSub [s] q h1).
  pose proof core_valid_s as Hvs. pose proof core_valid_r as Hvr.
  assert (Hida : forall p, ID_at ha p = ID_at h1 p) by (intros; apply ID_at_addSub).
  assert (Hva : forall p, is_Some (h1 !! p) -> is_Some (ha !! p))
    by (intros p Hp; apply ID_at_is_Some; rewrite Hida; by apply ID_at_is_Some).
  assert (Hvq : is_Some (h1 !! q)) by (rewrite Hq; apply core_target; by right).
  assert (HTq : inT q) by (rewrite Hq; apply core_inT_target; by right).
  apply uniq_moveSub; auto using core_inT_s, core_inT_r.
  apply uniq_addSub; auto using core_new_free, core_uniq0.
Qed.

End Core.

Record core_pre (h1 : list Trace.t) (t k : N) (s r : ptr) (sp : N -> option ptr)
    (id ir : SpanID.t) : Prop := CorePre {
  cp_sr : s <> r;
  cp_s : ID_at h1 s = Some id;
  cp_idt : SpanID.Trace id = t;
  cp_idk : SpanID.Span id = k;
  cp_r : ID_at h1 r = Some ir;
  cp_irt : SpanID.Trace ir = t;
  cp_spk : sp k = None;
  cp_sp1 : forall k' p, sp k' = Some p ->
    p <> s /\ exists i, ID_at h1 p = Some i /\ SpanID.Trace i = t /\ SpanID.Span i = k';
  cp_sp2 : forall p i, ID_at h1 p = Some i -> SpanID.Trace i = t -> p <> s ->
    sp (SpanID.Span i) = Some p;
  cp_sub0 : forall x X y, ID_at h1 x = Some X -> SpanID.Trace X = t ->
    (x ∈ Sub_at h1 y <-> x <> s /\ x <> r /\ default r (sp (SpanID.Parent X)) = y);
  cp_nd0 : forall y Y, ID_at h1 y = Some Y -> SpanID.Trace Y = t -> NoDup (Sub_at h1 y);
  cp_ok0 : sub_ok h1
}.

Section Fresh.
Implicit Types (ms : memoryStore) (h : list Trace.t) (p q c s r : ptr) (id : SpanID.t).

Lemma members_lt ms x y : valid ms -> x ∈ Sub_at (heap ms) y -> (x < length (heap ms))%nat.
Proof.
  intros Hv Hx. destruct (ID_at (heap ms) y) as [Y|] eqn:HY.
  - destruct (v_sub _ Hv _ _ _ HY Hx) as (j & Hj & _). by eapply ID_at_lt.
  - unfold Sub_at, ID_at in *. destruct (heap ms !! y); [done|]. by apply elem_of_nil in Hx.
Qed.

Lemma Sub_at_out h y : (length h <= y)%nat -> Sub_at h y = [].
Proof. intros Hy. unfold Sub_at. by rewrite lookup_ge_None_2. Qed.

Lemma spanAt_allocated_sp' id as_ ms k' :
  spanAt (allocated id as_ ms) (SpanID.Trace id) k' =
    sp' (SpanID.Span id) (length (heap ms)) (spanAt ms (SpanID.Trace id)) k'.
Proof.
  rewrite spanAt_allocated. unfold sp'. repeat case_decide; tauto || done.
Qed.

(** The state right after allocation meets the premises of the core
    lemmas. *)
Lemma allocated_core_pre id as_ ms r :
  valid ms -> tree_inv (SpanID.Trace id) ms ->
  trace ms !! SpanID.Trace id = Some r ->
  spanAt ms (SpanID.Trace id) (SpanID.Span id) = None ->
  exists ir,
    core_pre (heap ms ++ [newNode id as_]) (SpanID.Trace id) (SpanID.Span id)
      (length (heap ms)) r (spanAt ms (SpanID.Trace id)) id ir.
Proof.
  intros Hv [Hch Hnd] Hr Hfresh.
  destruct (v_root _ Hv _ _ Hr) as (ir & Hir & Htr).
  pose proof (ID_at_lt _ _ _ Hir) as Hrlt.
  exists ir. split; try done.
  - lia.
  - rewrite ID_at_app_new. by rewrite decide_True.
  - rewrite ID_at_app_new. rewrite decide_False by lia. done.
  - intros k' p Hp. destruct (v_span _ Hv _ _ _ Hp) as (i & Hi & Hit & Hik).
    pose proof (ID_at_lt _ _ _ Hi). split; [lia|]. exists i.
    rewrite ID_at_app_new, decide_False by lia. done.
  - intros p i. rewrite ID_at_app_new. intros Hi Hit Hp.
    rewrite decide_False in Hi by done. apply (v_reg _ Hv) in Hi. by rewrite Hit in Hi.
  - intros x X y. rewrite ID_at_app_new, Sub_at_app_new. case_decide as Hx.
    + subst x. intros _ _. split; [|tauto].
      intros Hin%(members_lt _ _ _ Hv). lia.
    + intros HX HXt. rewrite (Hch r x X y Hr HX HXt). tauto.
  - intros y Y. rewrite ID_at_app_new, Sub_at_app_new. case_decide as Hy.
    + subst y. intros _ _. rewrite Sub_at_out by lia. constructor.
    + apply Hnd.
  - apply sub_ok_app_new. by apply v_sub.
Qed.

Lemma no_nodes_without_root ms t x X :
  valid ms -> trace ms !! t = None ->
  ID_at (heap ms) x = Some X -> SpanID.Trace X <> t.
Proof.
  intros Hv Hnone HX Ht. apply (v_reg _ Hv) in HX. rewrite Ht in HX.
  by rewrite (v_dom _ Hv _ _ Hnone) in HX.
Qed.

Lemma tree_inv_first id as_ ms :
  valid ms -> trace ms !! SpanID.Trace id = None ->
  tree_inv (SpanID.Trace id)
    (rooted (SpanID.Trace id) (length (heap ms)) (allocated id as_ ms)).
Proof.
  intros Hv Hnone. split; unfold rooted, allocated; cbn [heap trace].
  - intros r x X y. rewrite lookup_insert_eq. intros [= <-].
    rewrite ID_at_app_new, Sub_at_app_new. case_decide as Hx.
    + subst x. intros _ _. split; [|tauto].
      intros Hin%(members_lt _ _ _ Hv). lia.
    + intros HX HXt. by destruct (no_nodes_without_root ms _ x X Hv Hnone HX).
  - intros y Y. rewrite ID_at_app_new, Sub_at_app_new. case_decide as Hy.
    + subst y. intros _ _. rewrite Sub_at_out by lia. constructor.
    + intros HY HYt. by destruct (no_nodes_without_root ms _ y Y Hv Hnone HY).
Qed.

(** A span collected for the first time keeps the shape of its trace. *)
Lemma tree_inv_fresh id as_ ms ms' :
  valid ms -> tree_inv (SpanID.Trace id) ms ->
  spanAt ms (SpanID.Trace id) (SpanID.Span id) = None ->
  Collect id as_ ms = Ok (None, ms') ->
  tree_inv (SpanID.Trace id) ms'.
Proof.
  intros Hv Hti Hfresh HC.
  destruct (Collect_cases id as_ ms Hv) as (s & r & ms1 & ms'' & HC' & Hloc & Hl).
  rewrite HC in HC'. injection HC' as <-.
  destruct Hloc as [Hnone|r Hr _|s r Hr Hs]; [| |congruence].
  - destruct Hl as [_|? ? ? Hne|? ? ? Hne]; [|done..]. by apply tree_inv_first.
  - destruct (allocated_core_pre id as_ ms r Hv Hti Hr Hfresh) as (ir & Hpre).
    pose proof Hpre as [Hsr Hs Hidt Hidk Hir Hirt Hspk Hsp1 Hsp2 Hsub0 Hnd0 Hok0].
    destruct Hl as [Heq|is' ir' q _ His' Hir' Hpromo Hq|is' ir' q _ His' Hir' Hp0 Hpk Hq];
      [done| |]; unfold allocated in His', Hir'; cbn [heap] in His', Hir';
      assert (is' = id) as -> by congruence; assert (ir' = ir) as -> by congruence.
    + rewrite Hirt in Hq. rewrite spanAt_allocated_sp' in Hq.
      split; cbn [heap trace span].
      * intros r0 x X y. rewrite lookup_insert_eq. intros [= <-].
        unfold allocated at 1. cbn [heap]. rewrite ID_at_promoteH. intros HX HXt.
        unfold spanAt at 1. cbn [span].
        change (match span (allocated id as_ ms) !! SpanID.Trace id with
                | Some m => m !! SpanID.Parent X | None => None end)
          with (spanAt (allocated id as_ ms) (SpanID.Trace id) (SpanID.Parent X)).
        rewrite spanAt_allocated_sp'. unfold allocated. cbn [heap].
        eapply core_promote_child; eauto.
      * intros y Y. unfold allocated. cbn [heap]. rewrite ID_at_promoteH.
        intros HY HYt.
        eapply (core_promote_uniq (heap ms ++ [newNode id as_])); eauto.
        by exists Y.
    + rewrite spanAt_allocated_sp' in Hq.
      split; cbn [heap trace span setHeap].
      * intros r0 x X y. unfold allocated at 1. cbn [trace]. rewrite Hr. intros [= <-].
        unfold allocated at 1. cbn [heap]. rewrite ID_at_insertH. intros HX HXt.
        change (spanAt (setHeap (allocated id as_ ms) ?h) ?a ?b)
          with (spanAt (allocated id as_ ms) a b).
        rewrite spanAt_allocated_sp'. unfold allocated. cbn [heap].
        eapply core_insert_child; eauto.
      * intros y Y. unfold allocated. cbn [heap]. rewrite ID_at_insertH.
        intros HY HYt.
        eapply (core_insert_uniq (heap ms ++ [newNode id as_])); eauto.
        by exists Y.
Qed.

End Fresh.

(** * The footprint of a call *)

(** What a call changes, seen from outside: one key of the span map, the
    root of one trace, at most one new node, and child slices of that
    trace only. *)
Record effect (id : SpanID.t) (s : ptr) (ms ms' : memoryStore) : Prop := Effect {
  ef_span : forall t k,
    spanAt ms' t k =
      if decide (t = SpanID.Trace id /\ k = SpanID.Span id) then Some s else spanAt ms t k;
  ef_trace : forall t, t <> SpanID.Trace id -> trace ms' !! t = trace ms !! t;
  ef_rooted : is_Some (trace ms' !! SpanID.Trace id);
  ef_keep : forall p i, ID_at (heap ms) p = Some i -> ID_at (heap ms') p = Some i;
  ef_new : forall p i, ID_at (heap ms') p = Some i ->
    ID_at (heap ms) p = Some i \/ (p = s /\ i = id);
  ef_frame : forall p i, ID_at (heap ms) p = Some i ->
    SpanID.Trace i <> SpanID.Trace id -> heap ms' !! p = heap ms !! p
}.

Section Footprint.
Implicit Types (ms : memoryStore) (h : list Trace.t) (p q c s r : ptr) (id : SpanID.t).

Lemma located_effect id as_ ms s r ms1 :
  valid ms -> located id as_ ms s r ms1 -> effect id s ms ms1.
Proof.
  intros Hv Hloc. destruct Hloc as [Hnone|r Hr Hfresh|s r Hr Hs].
  - split; unfold rooted; cbn [trace span heap].
    + intros t k. apply spanAt_allocated.
    + intros t Ht. by rewrite lookup_insert_ne.
    + rewrite lookup_insert_eq. eauto.
    + intros p i Hi. unfold allocated. cbn [heap]. rewrite ID_at_app_new.
      apply ID_at_lt in Hi as Hlt. by rewrite decide_False by lia.
    + intros p i. unfold allocated. cbn [heap]. rewrite ID_at_app_new.
      case_decide; [intros [= <-]; by right|by left].
    + intros p i Hi _. unfold allocated. cbn [heap].
      apply lookup_app_l. by eapply ID_at_lt.
  - split; cbn [trace span heap].
    + intros t k. apply spanAt_allocated.
    + done.
    + unfold allocated. cbn [trace]. eauto.
    + intros p i Hi. unfold allocated. cbn [heap]. rewrite ID_at_app_new.
      apply ID_at_lt in Hi as Hlt. by rewrite decide_False by lia.
    + intros p i. unfold allocated. cbn [heap]. rewrite ID_at_app_new.
      case_decide; [intros [= <-]; by right|by left].
    + intros p i Hi _. unfold allocated. cbn [heap].
      apply lookup_app_l. by eapply ID_at_lt.
  - destruct (v_span _ Hv _ _ _ Hs) as (is_ & His & Hts & Hks).
    split.
    + intros t k. change (spanAt (annotated s as_ ms) t k) with (spanAt ms t k).
      case_decide as Hk; [|done]. by destruct Hk as [-> ->].
    + done.
    + unfold annotated. cbn [trace setHeap]. eauto.
    + intros p i. by rewrite ID_at_annotated.
    + intros p i. rewrite ID_at_annotated. by left.
    + intros p i Hi Hne. unfold annotated. cbn [heap setHeap].
      apply list_lookup_alter_ne. intros ->. congruence.
Qed.

Lemma linked_effect id s r ms ms' is_ :
  valid ms ->
  trace ms !! SpanID.Trace id = Some r ->
  ID_at (heap ms) s = Some is_ ->
  SpanID.Trace is_ = SpanID.Trace id ->
  linked id s r ms ms' ->
  (forall t k, spanAt ms' t k = spanAt ms t k) /\
  (forall t, t <> SpanID.Trace id -> trace ms' !! t = trace ms !! t) /\
  is_Some (trace ms' !! SpanID.Trace id) /\
  (forall p, ID_at (heap ms') p = ID_at (heap ms) p) /\
  (forall p i, ID_at (heap ms) p = Some i ->
     SpanID.Trace i <> SpanID.Trace id -> heap ms' !! p = heap ms !! p).
Proof.
  intros Hv Hr His Hts Hl.
  destruct (linked_inv id s r ms ms' is_ Hv Hr His Hts Hl) as (_ & Hsp & [Hid Hfr] & Htr).
  split; [|split; [|split; [|split]]].
  - intros t k. unfold spanAt. by rewrite Hsp.
  - intros t Ht. destruct Htr as [-> | ->]; [done|]. by rewrite lookup_insert_ne.
  - destruct Htr as [-> | ->]; [eauto|]. rewrite lookup_insert_eq. eauto.
  - done.
  - done.
Qed.

Lemma Collect_effect id as_ ms :
  valid ms ->
  exists s ms', Collect id as_ ms = Ok (None, ms') /\ valid ms' /\ effect id s ms ms'.
Proof.
  intros Hv. destruct (Collect_cases id as_ ms Hv) as (s & r & ms1 & ms' & HC & Hloc & Hl).
  destruct (located_valid _ _ _ _ _ _ Hv Hloc) as (Hv1 & Hr1 & is_ & His & Hts & Hks).
  pose proof (located_effect _ _ _ _ _ _ Hv Hloc) as [E1 E2 E3 E4 E5 E6].
  destruct (linked_effect id s r ms1 ms' is_ Hv1 Hr1 His Hts Hl) as (L1 & L2 & L3 & L4 & L5).
  exists s, ms'. split; [done|]. split; [by eapply linked_inv|]. split.
  - intros t k. by rewrite L1.
  - intros t Ht. by rewrite L2, E2.
  - done.
  - intros p i Hi. rewrite L4. by apply E4.
  - intros p i. rewrite L4. apply E5.
  - intros p i Hi Hne. rewrite (L5 p i); [by eapply E6|by apply E4|done].
Qed.

(** A call for another trace leaves the shape of trace [t] alone. *)
Lemma tree_inv_frame id s t ms ms' :
  valid ms -> valid ms' -> effect id s ms ms' ->
  t <> SpanID.Trace id ->
  tree_inv t ms -> tree_inv t ms'.
Proof.
  intros Hv Hv' [E1 E2 E3 E4 E5 E6] Hne [Hch Hnd].
  assert (Hold : forall p i, ID_at (heap ms') p = Some i -> SpanID.Trace i = t ->
                   ID_at (heap ms) p = Some i /\ heap ms' !! p = heap ms !! p).
  { intros p i Hi Hit. destruct (E5 _ _ Hi) as [Hi0|[_ ->]]; [|done].
    split; [done|]. eapply E6; [done|congruence]. }
  assert (Hsub : forall y Y, ID_at (heap ms') y = Some Y -> SpanID.Trace Y = t ->
                   Sub_at (heap ms') y = Sub_at (heap ms) y).
  { intros y Y HY HYt. destruct (Hold _ _ HY HYt) as [_ Heq]. unfold Sub_at. by rewrite Heq. }
  split.
  - intros r x X y. rewrite E2 by done. intros Hr HX HXt.
    destruct (Hold _ _ HX HXt) as [HX0 _].
    rewrite E1. rewrite decide_False by tauto.
    rewrite <- (Hch r x X y Hr HX0 HXt). split.
    + intros Hin. destruct (ID_at (heap ms') y) as [Y|] eqn:HY.
      * destruct (v_sub _ Hv' _ _ _ HY Hin) as (j & Hj & Hjt).
        rewrite <- (Hsub y Y HY); [done|]. congruence.
      * unfold Sub_at, ID_at in *. destruct (heap ms' !! y); [done|].
        by apply elem_of_nil in Hin.
    + intros Hin. destruct (ID_at (heap ms) y) as [Y|] eqn:HY.
      * destruct (v_sub _ Hv _ _ _ HY Hin) as (j & Hj & Hjt).
        rewrite (Hsub y Y); [done|by apply E4|congruence].
      * unfold Sub_at, ID_at in *. destruct (heap ms !! y); [done|].
        by apply elem_of_nil in Hin.
  - intros y Y HY HYt. rewrite (Hsub y Y HY HYt).
    destruct (Hold _ _ HY HYt) as [HY0 _]. by eapply Hnd.
Qed.

End Footprint.

(** * The root of a trace *)

Section Root.
Implicit Types (ms : memoryStore) (h : list Trace.t) (p q c s r : ptr) (id : SpanID.t).

(** How a call moves the root pointer of its trace: the node [s] of the
    collected span takes over exactly when it is not the root already
    and is a root span or the recorded parent of the root. *)
Lemma Collect_root id as_ ms ms' s :
  valid ms ->
  Collect id as_ ms = Ok (None, ms') ->
  spanAt ms' (SpanID.Trace id) (SpanID.Span id) = Some s ->
  match trace ms !! SpanID.Trace id with
  | None => trace ms' !! SpanID.Trace id = Some s
  | Some r =>
      forall ir, ID_at (heap ms) r = Some ir ->
        trace ms' !! SpanID.Trace id =
          Some (if decide (s <> r /\ (SpanID.Parent id = 0 \/ SpanID.Parent ir = SpanID.Span id))
                then s else r)
  end.
Proof.
  intros Hv HC Hs.
  destruct (Collect_cases id as_ ms Hv) as (s0 & r & ms1 & ms'' & HC' & Hloc & Hl).
  rewrite HC in HC'. injection HC' as <-.
  destruct (located_valid _ _ _ _ _ _ Hv Hloc) as (Hv1 & Hr1 & is_ & His & Hts & Hks).
  pose proof (located_effect _ _ _ _ _ _ Hv Hloc) as [E1 E2 E3 E4 E5 E6].
  destruct (linked_effect id s0 r ms1 ms' is_ Hv1 Hr1 His Hts Hl) as (L1 & _).
  assert (s0 = s) as ->.
  { rewrite L1, E1 in Hs. rewrite decide_True in Hs by done. congruence. }
  assert (Hroot' : forall ir, ID_at (heap ms1) r = Some ir ->
            trace ms' !! SpanID.Trace id =
              Some (if decide (s <> r /\ (SpanID.Parent id = 0 \/ SpanID.Parent ir = SpanID.Span id))
                    then s else r)).
  { intros ir Hir.
    destruct Hl as [->|is' ir' q Hne His' Hir' Hpromo Hq|is' ir' q Hne His' Hir' Hp0 Hpk Hq].
    - rewrite decide_False by tauto. done.
    - assert (ir' = ir) as -> by congruence. rewrite decide_True by done.
      cbn [trace]. by rewrite lookup_insert_eq.
    - assert (ir' = ir) as -> by congruence. rewrite decide_False by tauto. done. }
  destruct Hloc as [Hnone|r Hr Hfresh|s r Hr Hs0].
  - rewrite Hnone. rewrite (Hroot' is_ His). by rewrite decide_False by tauto.
  - rewrite Hr. intros ir Hir. apply Hroot'. by apply E4.
  - rewrite Hr. intros ir Hir. apply Hroot'. by apply E4.
Qed.

(** The root pointer only ever moves to the node of the span being
    collected. *)
Lemma Collect_root_cases id as_ ms ms' s r r' :
  valid ms ->
  Collect id as_ ms = Ok (None, ms') ->
  spanAt ms' (SpanID.Trace id) (SpanID.Span id) = Some s ->
  trace ms !! SpanID.Trace id = Some r ->
  trace ms' !! SpanID.Trace id = Some r' ->
  r' = r \/ r' = s.
Proof.
  intros Hv HC Hs Hr Hr'. pose proof (Collect_root id as_ ms ms' s Hv HC Hs) as H.
  rewrite Hr in H. destruct (v_root _ Hv _ _ Hr) as (ir & Hir & _).
  rewrite (H ir Hir) in Hr'. case_decide; injection Hr' as <-; tauto.
Qed.

End Root.

(** * Spans and their annotations *)



Section Spans.
Implicit Types (ms : memoryStore) (h : list Trace.t) (p q c s r : ptr) (id : SpanID.t).







End Spans.

(** * Runs of calls *)

Definition traceIDs (calls : list (SpanID.t * list Annotation)) : list N :=
  map (fun c => SpanID.Trace (fst c)) calls.

Lemma CollectAll_Ok_valid calls ms :
  CollectAll calls NewMemoryStore = Ok ms -> valid ms.
Proof.
  intros Hrun. destruct (CollectAll_valid calls NewMemoryStore valid_NewMemoryStore)
    as (ms' & Hrun' & Hv). congruence.
Qed.

Lemma run_trace_dom calls ms :
  valid ms ->
  exists ms', CollectAll calls ms = Ok ms' /\ valid ms' /\
    forall x, trace ms' !! x = None <-> trace ms !! x = None /\ x ∉ traceIDs calls.
Proof.
  revert ms. induction calls as [|[id as_] calls IH]; intros ms Hv; simpl.
  - exists ms. split; [done|]. split; [done|]. intros x. split; [|tauto].
    intros Hx. split; [done|]. apply not_elem_of_nil.
  - destruct (Collect_effect id as_ ms Hv) as (s & ms1 & -> & Hv1 & [_ E2 E3 _ _ _]).
    destruct (IH ms1 Hv1) as (ms' & Hrun & Hv' & Hdom). exists ms'.
    split; [done|]. split; [done|]. intros x. rewrite Hdom, not_elem_of_cons.
    destruct (decide (x = SpanID.Trace id)) as [->|Hne].
    + destruct E3 as [r Hr]. rewrite Hr. split; [by intros [? _]|]. by intros (_ & ? & _).
    + rewrite E2 by done. tauto.
Qed.

Lemma reattachChildren_same p ms : reattachChildren p p ms = Panic "dst == src".
Proof. unfold reattachChildren. by rewrite bool_decide_eq_true_2. Qed.

(** When the root [r] of a trace is demoted by a root span and [r]'s own
    recorded parent has not been collected, [r] becomes a child of the
    new root. *)
Lemma Collect_demotes_under_new_root id as_ ms r ir :
  valid ms ->
  trace ms !! SpanID.Trace id = Some r ->
  ID_at (heap ms) r = Some ir ->
  SpanID.Parent id = 0 ->
  SpanID.Span id <> SpanID.Span ir ->
  spanAt ms (SpanID.Trace id) (SpanID.Parent ir) = None ->
  exists ms' s, Collect id as_ ms = Ok (None, ms') /\
    spanAt ms' (SpanID.Trace id) (SpanID.Span id) = Some s /\
    trace ms' !! SpanID.Trace id = Some s /\
    r ∈ Sub_at (heap ms') s.
Proof.
  intros Hv Hr Hir Hp0 Hspan Hparent.
  destruct (Collect_cases id as_ ms Hv) as (s & r0 & ms1 & ms' & HC & Hloc & Hl).
  destruct (located_valid _ _ _ _ _ _ Hv Hloc) as (Hv1 & Hr1 & is_ & His & Hts & Hks).
  pose proof (located_effect _ _ _ _ _ _ Hv Hloc) as [E1 E2 E3 E4 E5 E6].
  destruct (linked_effect id s r0 ms1 ms' is_ Hv1 Hr1 His Hts Hl) as (L1 & _).
  assert (r0 = r) as ->.
  { destruct Hloc; congruence. }
  pose proof (E4 _ _ Hir) as Hir1.
  assert (Htr : SpanID.Trace ir = SpanID.Trace id).
  { destruct (v_root _ Hv _ _ Hr) as (i & Hi & ?). congruence. }
  exists ms', s. split; [done|]. split; [by rewrite L1, E1, decide_True|].
  destruct Hl as [->|is' ir' q Hne His' Hir' Hpromo Hq|is' ir' q Hne His' Hir' Hp0' Hpk Hq].
  - congruence.
  - assert (is' = is_) as -> by congruence. assert (ir' = ir) as -> by congruence.
    cbn [trace heap]. split; [by rewrite lookup_insert_eq|].
    assert (q = s) as ->.
    { rewrite Hq, Htr, E1. case_decide; [done|]. by rewrite Hparent. }
    unfold promoteH.
    set (ha := moveSub _ s r (heap ms1)). set (hb := addSub [r] s ha).
    assert (Hvs : is_Some (heap ms1 !! s)) by (apply ID_at_is_Some; eauto).
    assert (Hvr : is_Some (heap ms1 !! r)) by (apply ID_at_is_Some; eauto).
    assert (Hva : forall p, is_Some (heap ms1 !! p) -> is_Some (ha !! p)).
    { intros p Hp. apply ID_at_is_Some. unfold ha. rewrite ID_at_moveSub.
      by apply ID_at_is_Some. }
    assert (Hvb : forall p, is_Some (heap ms1 !! p) -> is_Some (hb !! p)).
    { intros p Hp. apply ID_at_is_Some. unfold hb. rewrite ID_at_addSub.
      apply ID_at_is_Some. auto. }
    rewrite elem_of_Sub_moveSub by auto. right. left. split; [done|]. left.
    unfold hb. rewrite elem_of_Sub_addSub by auto. right. split; [done|].
    by apply list_elem_of_singleton.
  - done.
Qed.

(** Collecting a span that is already there allocates nothing. *)
Lemma recollect_allocates_nothing id as_ ms ms' :
  valid ms ->
  is_Some (spanAt ms (SpanID.Trace id) (SpanID.Span id)) ->
  Collect id as_ ms = Ok (None, ms') ->
  length (heap ms') = length (heap ms).
Proof.
  intros Hv [s0 Hs0] HC.
  destruct (Collect_cases id as_ ms Hv) as (s & r & ms1 & ms'' & HC' & Hloc & Hl).
  rewrite HC in HC'. injection HC' as <-.
  assert (length (heap ms1) = length (heap ms)) as <-.
  { destruct Hloc as [Hnone|r Hr Hfresh|s r Hr Hs].
    - by rewrite (v_dom _ Hv _ _ Hnone) in Hs0.
    - congruence.
    - unfold annotated. cbn [heap setHeap]. apply length_alter. }
  destruct Hl as [->|? ? ? _ _ _ _ _|? ? ? _ _ _ _ _ _]; [done|..]; cbn [heap setHeap].
  - unfold promoteH. by rewrite length_moveSub, length_addSub, length_moveSub.
  - unfold insertH. by rewrite length_moveSub, length_addSub.
Qed.




(** * Example spans *)

Definition exR : SpanID.t := NewRootSpanID 1 1.
Definition exA : SpanID.t := NewSpanID exR 2.
Definition exB : SpanID.t := NewSpanID exA 3.
Definition exC : SpanID.t := NewSpanID exB 4.

Definition exName : Annotation := {| Key := list_ascii_of_string "name"; Value := [] |}.

(** The store after a run, for the examples. *)
Definition run (calls : list (SpanID.t * list Annotation)) : memoryStore :=
  match CollectAll calls NewMemoryStore with
  | Ok ms => ms
  | Panic _ => NewMemoryStore
  end.

(** [a] is an ancestor of [x] among [spans]: a chain of parent links
    leads from [x] up to [a]. *)
Inductive ancestor (spans : list SpanID.t) : SpanID.t -> SpanID.t -> Prop :=
| ancestor_parent a x :
    a ∈ spans -> x ∈ spans ->
    SpanID.Trace a = SpanID.Trace x -> SpanID.Span a = SpanID.Parent x ->
    ancestor spans a x
| ancestor_trans a b x :
    ancestor spans a b -> ancestor spans b x -> ancestor spans a x.

(** The spans of trace [t] among the calls, in arrival order. *)
Definition callsFor (t : N) (calls : list (SpanID.t * list Annotation)) : list SpanID.t :=
  filter (fun id => SpanID.Trace id = t) (map fst calls).

Lemma callsFor_cons t id as_ calls :
  callsFor t ((id, as_) :: calls) =
    if decide (SpanID.Trace id = t) then id :: callsFor t calls else callsFor t calls.
Proof. unfold callsFor. simpl. by rewrite filter_cons. Qed.

Lemma callsFor_app t calls1 calls2 :
  callsFor t (calls1 ++ calls2) = callsFor t calls1 ++ callsFor t calls2.
Proof. unfold callsFor. by rewrite map_app, filter_app. Qed.

(** * The root a trace should have

    The root of a trace as the assembly rules give it, computed from the
    spans collected for the trace alone: the first span collected is the
    root; a later span takes over when its node is not the root already
    and it is a root span or the recorded parent of the root.  A span
    collected again is the node made at its first collection. *)

Definition firstSpan (seen : list SpanID.t) (k : N) : option SpanID.t :=
  List.find (fun j => bool_decide (SpanID.Span j = k)) seen.

Definition rootStep (st : list SpanID.t * option SpanID.t) (id : SpanID.t)
  : list SpanID.t * option SpanID.t :=
  let seen' := fst st ++ [id] in
  let n := default id (firstSpan seen' (SpanID.Span id)) in
  (seen',
   Some match snd st with
        | None => n
        | Some R =>
            if bool_decide (SpanID.Span id <> SpanID.Span R)
               && (SpanID.IsRoot id || bool_decide (SpanID.Parent R = SpanID.Span id))
            then n else R
        end).

Definition specRoot (calls : list (SpanID.t * list Annotation)) (x : N) : option SpanID.t :=
  snd (foldl rootStep ([], None) (callsFor x calls)).

Lemma firstSpan_snoc seen id k :
  firstSpan (seen ++ [id]) k =
    match firstSpan seen k with
    | Some j => Some j
    | None => if bool_decide (SpanID.Span id = k) then Some id else None
    end.
Proof.
  unfold firstSpan. induction seen as [|j seen IH]; simpl.
  - done.
  - destruct (bool_decide (SpanID.Span j = k)); [done|apply IH].
Qed.

(** How the store and the computed root of trace [x] correspond after
    the spans [seen] of the trace. *)
Record root_inv (x : N) (seen : list SpanID.t) (ro : option SpanID.t) (ms : memoryStore)
  : Prop := RootInv {
  ro_valid : valid ms;
  ro_first : forall k,
    firstSpan seen k =
      match spanAt ms x k with Some p => ID_at (heap ms) p | None => None end;
  ro_root : ro = match trace ms !! x with Some r => ID_at (heap ms) r | None => None end
}.

Lemma root_inv_New x : root_inv x [] None NewMemoryStore.
Proof.
  split.
  - apply valid_NewMemoryStore.
  - intros k. unfold NewMemoryStore, spanAt. simpl. by rewrite lookup_empty.
  - unfold NewMemoryStore. simpl. by rewrite lookup_empty.
Qed.

Lemma root_inv_other x seen ro ms id as_ ms' :
  root_inv x seen ro ms -> SpanID.Trace id <> x ->
  Collect id as_ ms = Ok (None, ms') ->
  root_inv x seen ro ms'.
Proof.
  intros [Hv Hfirst Hroot] Hne HC.
  destruct (Collect_effect id as_ ms Hv) as (s & ms'' & HC' & Hv' & [E1 E2 E3 E4 E5 E6]).
  rewrite HC in HC'. injection HC' as <-. split; [done| |].
  - intros k. rewrite Hfirst, E1. rewrite decide_False by (intros [? _]; congruence).
    destruct (spanAt ms x k) as [p|] eqn:Hp; [|done].
    destruct (v_span _ Hv _ _ _ Hp) as (i & Hi & _). rewrite Hi. symmetry. by apply E4.
  - rewrite Hroot, E2 by done.
    destruct (trace ms !! x) as [r|] eqn:Hr; [|done].
    destruct (v_root _ Hv _ _ Hr) as (i & Hi & _). rewrite Hi. symmetry. by apply E4.
Qed.

Lemma root_inv_same x seen ro ms id as_ ms' :
  root_inv x seen ro ms -> SpanID.Trace id = x ->
  Collect id as_ ms = Ok (None, ms') ->
  root_inv x (fst (rootStep (seen, ro) id)) (snd (rootStep (seen, ro) id)) ms'.
Proof.
  intros [Hv Hfirst Hroot] Ht HC. subst x.
  destruct (Collect_effect id as_ ms Hv) as (s & ms'' & HC' & Hv' & [E1 E2 E3 E4 E5 E6]).
  rewrite HC in HC'. injection HC' as <-.
  assert (Hs : spanAt ms' (SpanID.Trace id) (SpanID.Span id) = Some s)
    by (by rewrite E1, decide_True).
  destruct (v_span _ Hv' _ _ _ Hs) as (is_ & His & Hist & Hisk).
  (* the node of the span carries the identifier of its first collection *)
  assert (Hnode : default id (firstSpan (seen ++ [id]) (SpanID.Span id)) = is_).
  { rewrite firstSpan_snoc, Hfirst, bool_decide_eq_true_2 by done.
    destruct (spanAt ms (SpanID.Trace id) (SpanID.Span id)) as [p|] eqn:Hp.
    - destruct (v_span _ Hv _ _ _ Hp) as (i & Hi & Hit & Hik). rewrite Hi. simpl.
      pose proof (E4 _ _ Hi) as Hi'. pose proof (v_reg _ Hv' _ _ Hi') as Hreg.
      rewrite Hit, Hik in Hreg. congruence.
    - simpl. destruct (E5 _ _ His) as [His0|[_ ->]]; [|done].
      apply (v_reg _ Hv) in His0. rewrite Hist, Hisk in His0. congruence. }
  split; [done| |]; cbn [rootStep fst snd].
  - intros k. rewrite firstSpan_snoc, Hfirst, E1.
    destruct (decide (k = SpanID.Span id)) as [->|Hk].
    + rewrite decide_True by done. rewrite His, <- Hnode.
      rewrite firstSpan_snoc, Hfirst, bool_decide_eq_true_2 by done.
      destruct (spanAt ms (SpanID.Trace id) (SpanID.Span id)) as [p|] eqn:Hp; [|done].
      destruct (v_span _ Hv _ _ _ Hp) as (i & Hi & _). by rewrite Hi.
    + rewrite decide_False by tauto. rewrite bool_decide_eq_false_2 by done.
      destruct (spanAt ms (SpanID.Trace id) k) as [p|] eqn:Hp; [|done].
      destruct (v_span _ Hv _ _ _ Hp) as (i & Hi & _). rewrite Hi.
      by rewrite (E4 _ _ Hi).
  - rewrite Hnode. pose proof (Collect_root id as_ ms ms' s Hv HC Hs) as Hcr.
    rewrite Hroot. destruct (trace ms !! SpanID.Trace id) as [r|] eqn:Hr.
    + destruct (v_root _ Hv _ _ Hr) as (ir & Hir & Hirt). rewrite Hir.
      rewrite (Hcr ir Hir). pose proof (E4 _ _ Hir) as Hir'.
      assert (Hsr : s <> r <-> SpanID.Span id <> SpanID.Span ir).
      { split.
        - intros Hne Heq. apply Hne. apply (v_reg _ Hv') in Hir'.
          rewrite Hirt, <- Heq in Hir'. congruence.
        - intros Hne ->. congruence. }
      unfold SpanID.IsRoot.
      destruct (decide (s <> r /\
                  (SpanID.Parent id = 0 \/ SpanID.Parent ir = SpanID.Span id))) as [Hd|Hd].
      * destruct Hd as [Hne Hpp].
        rewrite (bool_decide_eq_true_2 (SpanID.Span id <> SpanID.Span ir))
          by (by apply Hsr).
        destruct Hpp as [Hp|Hp].
        -- rewrite (bool_decide_eq_true_2 _ Hp). simpl. by rewrite His.
        -- rewrite (bool_decide_eq_true_2 _ Hp), orb_true_r. simpl. by rewrite His.
      * rewrite Hir'. f_equal.
        destruct (decide (SpanID.Span id = SpanID.Span ir)) as [He|He].
        -- by rewrite (bool_decide_eq_false_2 (SpanID.Span id <> SpanID.Span ir))
             by (intros H; by apply H).
        -- assert (Hne : s <> r) by (by apply Hsr).
           rewrite (bool_decide_eq_false_2 (SpanID.Parent id = 0)) by tauto.
           rewrite (bool_decide_eq_false_2 (SpanID.Parent ir = SpanID.Span id)) by tauto.
           by rewrite andb_false_r.
    + rewrite Hcr. by rewrite His.
Qed.

Lemma root_inv_all x calls seen ro ms :
  root_inv x seen ro ms ->
  exists ms', CollectAll calls ms = Ok ms' /\
    root_inv x (fst (foldl rootStep (seen, ro) (callsFor x calls)))
               (snd (foldl rootStep (seen, ro) (callsFor x calls))) ms'.
Proof.
  revert seen ro ms. induction calls as [|[id as_] calls IH]; intros seen ro ms Hinv.
  - exists ms. split; [done|]. done.
  - cbn [CollectAll].
    destruct (Collect_valid id as_ ms (ro_valid _ _ _ _ Hinv)) as (ms1 & HC & _).
    rewrite HC. rewrite callsFor_cons. case_decide as Ht.
    + cbn [foldl]. pose proof (root_inv_same x seen ro ms id as_ ms1 Hinv Ht HC) as Hinv1.
      destruct (rootStep (seen, ro) id) as [seen1 ro1]. by apply IH.
    + apply IH. by eapply root_inv_other.
Qed.

(** * Properties: aborts, lookups, annotations *)

(** C6: whatever calls came before, [Collect] on the resulting store
    returns the nil error and does not abort; in particular it never
    reaches the [dst == src] panic of [reattachChildren]. *)
Theorem Collect_never_aborts
    (calls : list (SpanID.t * list Annotation)) (id : SpanID.t) (as_ : list Annotation) :
  exists ms ms',
    CollectAll calls NewMemoryStore = Ok ms /\ Collect id as_ ms = Ok (None, ms').
Proof.
  destruct (CollectAll_valid calls NewMemoryStore valid_NewMemoryStore) as (ms & Hrun & Hv).
  destruct (Collect_valid id as_ ms Hv) as (ms' & HC & _). eauto.
Qed.

(** C9: [Trace x] fails with the trace-not-found error exactly when no
    call was made for trace [x]; otherwise it returns, with no error, the
    root node of the tree of trace [x]: the node of the span that the
    assembly rules make the root after these calls ([specRoot]). *)
Theorem Trace_not_found_iff (calls : list (SpanID.t * list Annotation)) (x : N) :
  exists ms, CollectAll calls NewMemoryStore = Ok ms /\
    (TraceOf x ms = inr ErrTraceNotFound <-> x ∉ traceIDs calls) /\
    (x ∈ traceIDs calls ->
       exists p n, TraceOf x ms = inl p /\ heap ms !! p = Some n /\ traceOf n = x /\
         specRoot calls x = Some (nodeID n) /\
         spanAt ms x (spanOf n) = Some p).
Proof.
  destruct (run_trace_dom calls NewMemoryStore valid_NewMemoryStore)
    as (ms & Hrun & Hv & Hdom).
  destruct (root_inv_all x calls [] None NewMemoryStore (root_inv_New x))
    as (ms0 & Hrun0 & [_ _ Hroot]).
  rewrite Hrun in Hrun0. injection Hrun0 as <-.
  exists ms. split; [done|]. unfold TraceOf.
  assert (Hx : trace ms !! x = None <-> x ∉ traceIDs calls).
  { rewrite Hdom. unfold NewMemoryStore. cbn [trace]. rewrite lookup_empty. tauto. }
  split.
  - rewrite <- Hx. destruct (trace ms !! x); [split; discriminate|done].
  - intros Hin. destruct (trace ms !! x) as [p|] eqn:Hp.
    + destruct (v_root _ Hv _ _ Hp) as (i & Hi & Hit).
      destruct (ID_at_Some _ _ _ Hi) as (n & Hn & Hni).
      exists p, n. split; [done|]. split; [done|].
      split; [unfold traceOf; fold (nodeID n); congruence|].
      split; [unfold specRoot; rewrite Hroot, Hi; congruence|].
      pose proof (v_reg _ Hv _ _ Hi) as Hreg. unfold spanOf. fold (nodeID n).
      rewrite Hni. by rewrite Hit in Hreg.
    + by apply Hx in Hin.
Qed.



(** * Properties: the root pointer *)

(** C4, as the code has it: when the root of a trace is a temporary root
    and a different span is collected that is a root span or the direct
    parent of the temporary root, the root pointer moves to the node of
    the collected span. *)
Theorem temporary_root_replaced
    (calls : list (SpanID.t * list Annotation)) (ms : memoryStore)
    (id : SpanID.t) (as_ : list Annotation) (r : ptr) (ir : SpanID.t) :
  CollectAll calls NewMemoryStore = Ok ms ->
  trace ms !! SpanID.Trace id = Some r ->
  ID_at (heap ms) r = Some ir ->
  SpanID.Parent ir <> 0 ->
  SpanID.Span id <> SpanID.Span ir ->
  SpanID.Parent id = 0 \/ SpanID.Span id = SpanID.Parent ir ->
  exists ms' s, Collect id as_ ms = Ok (None, ms') /\
    spanAt ms' (SpanID.Trace id) (SpanID.Span id) = Some s /\
    TraceOf (SpanID.Trace id) ms' = inl s /\ s <> r.
Proof.
  intros Hrun Hr Hir _ Hspan Hpromo. apply CollectAll_Ok_valid in Hrun as Hv.
  destruct (Collect_effect id as_ ms Hv) as (s & ms' & HC & Hv' & [E1 _ _ E4 _ _]).
  assert (Hs : spanAt ms' (SpanID.Trace id) (SpanID.Span id) = Some s)
    by (by rewrite E1, decide_True).
  assert (Hne : s <> r).
  { intros ->. destruct (v_span _ Hv' _ _ _ Hs) as (i & Hi & _ & Hik).
    rewrite (E4 _ _ Hir) in Hi. congruence. }
  exists ms', s. split; [done|]. split; [done|]. split; [|done].
  pose proof (Collect_root id as_ ms ms' s Hv HC Hs) as Hroot. rewrite Hr in Hroot.
  unfold TraceOf. rewrite (Hroot ir Hir). rewrite decide_True; [done|].
  split; [done|]. destruct Hpromo; [by left|by right].
Qed.

Lemma temporary_root_replaced_witness :
  exists ms' s, Collect exB [] (run [(exC, [])]) = Ok (None, ms') /\
    spanAt ms' (SpanID.Trace exB) (SpanID.Span exB) = Some s /\
    TraceOf (SpanID.Trace exB) ms' = inl s /\ s <> 0%nat.
Proof.
  apply (temporary_root_replaced [(exC, [])] (run [(exC, [])]) exB [] 0%nat exC).
  - vm_compute. reflexivity.
  - vm_compute. reflexivity.
  - vm_compute. reflexivity.
  - vm_compute. discriminate.
  - vm_compute. discriminate.
  - right. vm_compute. reflexivity.
Defined.

(** C4, as stated, fails: in the trace R -> A -> B -> C, with C collected
    first and so the temporary root, collecting the ancestor A (the
    grandparent of C) leaves the root pointer on C. *)
Lemma temporary_root_survives_ancestor :
  ancestor [exC; exB; exA; exR] exA exC /\
  exists ms ms' c,
    CollectAll [(exC, [])] NewMemoryStore = Ok ms /\
    TraceOf 1 ms = inl c /\ ID_at (heap ms) c = Some exC /\ SpanID.Parent exC <> 0 /\
    Collect exA [] ms = Ok (None, ms') /\
    TraceOf 1 ms' = inl c.
Proof.
  split.
  - apply (ancestor_trans _ exA exB exC); apply ancestor_parent;
      try reflexivity; rewrite !elem_of_cons; tauto.
  - eexists _, _, _. split; [vm_compute; reflexivity|].
    split; [vm_compute; reflexivity|]. split; [vm_compute; reflexivity|].
    split; [vm_compute; discriminate|]. split; vm_compute; reflexivity.
Qed.

(** C10, as the code has it: when the root of a trace is a root span and
    a different root span of the trace is collected, no span with span
    identifier zero having been collected in the trace, the new span
    becomes the root and the previous root one of its children. *)
Theorem last_root_wins
    (calls : list (SpanID.t * list Annotation)) (ms : memoryStore)
    (id : SpanID.t) (as_ : list Annotation) (r : ptr) (ir : SpanID.t) :
  CollectAll calls NewMemoryStore = Ok ms ->
  trace ms !! SpanID.Trace id = Some r ->
  ID_at (heap ms) r = Some ir ->
  SpanID.Parent ir = 0 ->
  SpanID.Parent id = 0 ->
  SpanID.Span id <> SpanID.Span ir ->
  spanAt ms (SpanID.Trace id) 0 = None ->
  exists ms' s, Collect id as_ ms = Ok (None, ms') /\
    spanAt ms' (SpanID.Trace id) (SpanID.Span id) = Some s /\
    TraceOf (SpanID.Trace id) ms' = inl s /\
    r ∈ Sub_at (heap ms') s.
Proof.
  intros Hrun Hr Hir Hir0 Hid0 Hspan Hzero. apply CollectAll_Ok_valid in Hrun as Hv.
  rewrite <- Hir0 in Hzero.
  destruct (Collect_demotes_under_new_root id as_ ms r ir Hv Hr Hir Hid0 Hspan Hzero)
    as (ms' & s & HC & Hs & Hroot & Hin).
  exists ms', s. unfold TraceOf. by rewrite Hroot.
Qed.

Lemma last_root_wins_witness :
  exists ms' s, Collect (NewRootSpanID 1 5) [] (run [(exR, []); (exA, [])]) = Ok (None, ms') /\
    spanAt ms' 1 5 = Some s /\ TraceOf 1 ms' = inl s /\ 0%nat ∈ Sub_at (heap ms') s.
Proof.
  apply (last_root_wins [(exR, []); (exA, [])] (run [(exR, []); (exA, [])])
           (NewRootSpanID 1 5) [] 0%nat exR).
  - vm_compute. reflexivity.
  - vm_compute. reflexivity.
  - vm_compute. reflexivity.
  - vm_compute. reflexivity.
  - vm_compute. reflexivity.
  - vm_compute. discriminate.
  - vm_compute. reflexivity.
Defined.

(** C10, as stated, fails: with a span of span identifier zero in the
    trace, the demoted root is filed under that span and not under the
    new root. *)
Lemma demoted_root_not_under_new_root :
  exists ms ms' z r1 r2,
    CollectAll [(SpanID.Make 1 0 5, []); (NewRootSpanID 1 1, [])] NewMemoryStore = Ok ms /\
    TraceOf 1 ms = inl r1 /\ ID_at (heap ms) r1 = Some (NewRootSpanID 1 1) /\
    Collect (NewRootSpanID 1 2) [] ms = Ok (None, ms') /\
    TraceOf 1 ms' = inl r2 /\ ID_at (heap ms') r2 = Some (NewRootSpanID 1 2) /\
    ID_at (heap ms') z = Some (SpanID.Make 1 0 5) /\
    Sub_at (heap ms') r2 = [z] /\ Sub_at (heap ms') z = [r1] /\
    r1 ∉ Sub_at (heap ms') r2.
Proof.
  eexists _, _, 0%nat, 1%nat, 2%nat.
  split; [vm_compute; reflexivity|]. split; [vm_compute; reflexivity|].
  split; [vm_compute; reflexivity|]. split; [vm_compute; reflexivity|].
  split; [vm_compute; reflexivity|]. split; [vm_compute; reflexivity|].
  split; [vm_compute; reflexivity|].
  split; [vm_compute; reflexivity|]. split; [vm_compute; reflexivity|].
  intros Hin. vm_compute in Hin. apply list_elem_of_singleton in Hin. discriminate.
Qed.

(** * Properties: collecting a span again *)

(** C3 fails on the code: collecting the child span of a root a second
    time appends its node to the root's child slice again. *)
Lemma recollect_duplicates_child :
  exists ms r c,
    CollectAll [(exR, []); (exA, []); (exA, [])] NewMemoryStore = Ok ms /\
    TraceOf 1 ms = inl r /\ spanAt ms 1 2 = Some c /\
    length (heap ms) = 2%nat /\
    Sub_at (heap ms) r = [c; c] /\ ~ NoDup (Sub_at (heap ms) r).
Proof.
  eexists _, 0%nat, 1%nat.
  split; [vm_compute; reflexivity|]. split; [vm_compute; reflexivity|].
  split; [vm_compute; reflexivity|]. split; [vm_compute; reflexivity|].
  split; [vm_compute; reflexivity|].
  intros Hnd. vm_compute in Hnd. apply NoDup_cons in Hnd as [Hnotin _].
  apply Hnotin. by apply list_elem_of_singleton.
Qed.

(** * Traces collected span by span *)

(** What holds of trace [t] after its spans [l] have been collected,
    each once, among calls for any other traces. *)
Record run_inv (t : N) (l : list SpanID.t) (ms : memoryStore) : Prop := RunInv {
  ri_valid : valid ms;
  ri_tree : tree_inv t ms;
  ri_trace : forall i, i ∈ l -> SpanID.Trace i = t;
  ri_nodes : forall i, SpanID.Trace i = t ->
    ((exists p, ID_at (heap ms) p = Some i) <-> i ∈ l);
  ri_root : (forall i, i ∈ l -> SpanID.Span i <> 0) ->
    forall i r R, i ∈ l -> SpanID.Parent i = 0 ->
      trace ms !! t = Some r -> ID_at (heap ms) r = Some R -> SpanID.Parent R = 0
}.

Lemma run_inv_New t : run_inv t [] NewMemoryStore.
Proof.
  split.
  - apply valid_NewMemoryStore.
  - split; unfold NewMemoryStore; cbn [trace heap].
    + intros r x X y. by rewrite lookup_empty.
    + intros y Y. unfold ID_at. by rewrite lookup_nil.
  - intros i Hi. by apply elem_of_nil in Hi.
  - intros i _. split.
    + intros [p Hp]. unfold ID_at, NewMemoryStore in Hp. cbn [heap] in Hp.
      by rewrite lookup_nil in Hp.
    + intros Hi. by apply elem_of_nil in Hi.
  - intros _ i r R Hi. by apply elem_of_nil in Hi.
Qed.

Lemma run_inv_fresh_key t l ms id :
  run_inv t l ms -> SpanID.Trace id = t -> SpanID.Span id ∉ map SpanID.Span l ->
  spanAt ms (SpanID.Trace id) (SpanID.Span id) = None.
Proof.
  intros [Hv _ _ Hnodes _] Ht Hfresh.
  destruct (spanAt ms (SpanID.Trace id) (SpanID.Span id)) as [p|] eqn:Hp; [|done].
  destruct (v_span _ Hv _ _ _ Hp) as (i & Hi & Hit & Hik). exfalso. apply Hfresh.
  rewrite <- Hik. apply (list_elem_of_fmap_2 SpanID.Span). apply Hnodes; [congruence|eauto].
Qed.

Lemma run_inv_other t l ms id as_ ms' :
  run_inv t l ms -> SpanID.Trace id <> t ->
  Collect id as_ ms = Ok (None, ms') ->
  run_inv t l ms'.
Proof.
  intros [Hv Htree Htr Hnodes Hroot] Hne HC.
  destruct (Collect_effect id as_ ms Hv) as (s & ms'' & HC' & Hv' & Heff).
  rewrite HC in HC'. injection HC' as <-.
  pose proof Heff as [E1 E2 E3 E4 E5 E6].
  split; try done.
  - by apply (tree_inv_frame id s t ms ms').
  - intros i Hit. rewrite <- (Hnodes i Hit). split.
    + intros [p Hp]. destruct (E5 _ _ Hp) as [Hp0|[_ ->]]; [eauto|done].
    + intros [p Hp]. eauto.
  - intros Hnz i r R Hi Hi0. rewrite E2 by done. intros Hr HR.
    destruct (v_root _ Hv _ _ Hr) as (R0 & HR0 & _).
    assert (R = R0) as -> by (apply E4 in HR0; congruence). eauto.
Qed.

Lemma run_inv_same t l ms id as_ ms' :
  run_inv t l ms -> SpanID.Trace id = t ->
  SpanID.Span id ∉ map SpanID.Span l ->
  Collect id as_ ms = Ok (None, ms') ->
  run_inv t (l ++ [id]) ms'.
Proof.
  intros Hinv Ht Hfresh HC.
  pose proof (run_inv_fresh_key t l ms id Hinv Ht Hfresh) as Hkey.
  destruct Hinv as [Hv Htree Htr Hnodes Hroot].
  destruct (Collect_effect id as_ ms Hv) as (s & ms'' & HC' & Hv' & Heff).
  rewrite HC in HC'. injection HC' as <-.
  pose proof Heff as [E1 E2 E3 E4 E5 E6].
  assert (Hs : spanAt ms' (SpanID.Trace id) (SpanID.Span id) = Some s)
    by (by rewrite E1, decide_True).
  assert (Hsid : ID_at (heap ms') s = Some id).
  { destruct (v_span _ Hv' _ _ _ Hs) as (i & Hi & Hit & Hik).
    destruct (E5 _ _ Hi) as [Hi0|[_ ->]]; [|done].
    apply (v_reg _ Hv) in Hi0. rewrite Hit, Hik in Hi0. congruence. }
  assert (Hsnew : forall i, ID_at (heap ms) s <> Some i).
  { intros i Hi. pose proof (E4 _ _ Hi) as Hi'. assert (i = id) as -> by congruence.
    apply (v_reg _ Hv) in Hi. congruence. }
  split; try done.
  - subst t. by apply (tree_inv_fresh id as_ ms ms').
  - intros i [Hi| ->%list_elem_of_singleton]%elem_of_app; [by apply Htr|done].
  - intros i Hit. rewrite elem_of_app, list_elem_of_singleton, <- (Hnodes i Hit). split.
    + intros [p Hp]. destruct (E5 _ _ Hp) as [Hp0|[_ ->]]; [eauto|by right].
    + intros [[p Hp]| ->]; eauto.
  - intros Hnz i r' R' Hi Hi0 Hr' HR'. subst t.
    pose proof (Collect_root id as_ ms ms' s Hv HC Hs) as Hcr.
    destruct (trace ms !! SpanID.Trace id) as [r|] eqn:Hr.
    + destruct (v_root _ Hv _ _ Hr) as (ir & Hir & _).
      rewrite (Hcr ir Hir) in Hr'. injection Hr' as <-.
      assert (Hl : forall j, j ∈ l -> SpanID.Span j <> 0)
        by (intros j Hj; apply Hnz, elem_of_app; by left).
      assert (Hidnz : SpanID.Span id <> 0)
        by (apply Hnz, elem_of_app; right; by apply list_elem_of_singleton).
      apply elem_of_app in Hi as [Hi| ->%list_elem_of_singleton].
      * pose proof (Hroot Hl i r ir Hi Hi0 eq_refl Hir) as Hir0.
        case_decide as Hd.
        -- assert (R' = id) as -> by congruence.
           destruct Hd as [_ [?|Hp]]; [done|]. congruence.
        -- apply E4 in Hir. congruence.
      * case_decide as Hd; [congruence|].
        exfalso. apply Hd. split; [|by left]. intros ->. by eapply Hsnew.
    + rewrite Hcr in Hr'. injection Hr' as <-. assert (R' = id) as -> by congruence.
      apply elem_of_app in Hi as [Hi| ->%list_elem_of_singleton]; [|done].
      exfalso. assert (exists p, ID_at (heap ms) p = Some i) as [p Hp]
        by (apply Hnodes; [by apply Htr|done]).
      apply (no_nodes_without_root ms (SpanID.Trace id) p i Hv Hr Hp). by apply Htr.
Qed.

(** The run of any calls in which the spans of trace [t] are new and
    pairwise different keeps the invariant of trace [t]. *)
Lemma run_inv_all t calls l ms :
  run_inv t l ms ->
  NoDup (map SpanID.Span (l ++ callsFor t calls)) ->
  exists ms', CollectAll calls ms = Ok ms' /\ run_inv t (l ++ callsFor t calls) ms'.
Proof.
  revert l ms. induction calls as [|[id as_] calls IH]; intros l ms Hinv Hnd.
  - exists ms. split; [done|]. unfold callsFor. simpl. by rewrite app_nil_r.
  - cbn [CollectAll]. destruct (Collect_valid id as_ ms (ri_valid _ _ _ Hinv)) as (ms1 & HC & _).
    rewrite HC. rewrite callsFor_cons in *. case_decide as Ht.
    + replace (l ++ id :: callsFor t calls) with ((l ++ [id]) ++ callsFor t calls) in *
        by (by rewrite <- app_assoc).
      apply IH; [|done]. eapply run_inv_same; eauto.
      rewrite !map_app in Hnd. apply NoDup_app in Hnd as [Hnd _].
      apply NoDup_app in Hnd as (_ & Hdisj & _). intros Hin.
      apply (Hdisj _ Hin). simpl. by apply list_elem_of_singleton.
    + apply IH; [|done]. eapply run_inv_other; eauto.
Qed.

Lemma run_inv_from_New t calls :
  NoDup (map SpanID.Span (callsFor t calls)) ->
  exists ms, CollectAll calls NewMemoryStore = Ok ms /\ run_inv t (callsFor t calls) ms.
Proof. intros Hnd. by apply (run_inv_all t calls [] NewMemoryStore (run_inv_New t)). Qed.

(** * Traces made by [NewRootSpanID] and [NewSpanID] *)

(** The spans of one trace, as a program makes them: a root span, then
    children of spans already made, each with a fresh non-zero span
    identifier (newest first). *)
Inductive generated (t : N) : list SpanID.t -> Prop :=
| generated_root g :
    g <> 0 -> generated t [NewRootSpanID t g]
| generated_child spans parent g :
    generated t spans -> parent ∈ spans ->
    g <> 0 -> g ∉ map SpanID.Span spans ->
    generated t (NewSpanID parent g :: spans).

Section Generated.
Variable t : N.
Implicit Types (spans : list SpanID.t) (i j : SpanID.t).

Lemma generated_trace spans : generated t spans -> forall i, i ∈ spans -> SpanID.Trace i = t.
Proof.
  induction 1 as [g Hg|spans parent g Hgen IH Hp Hg Hfresh]; intros i.
  - by intros ->%list_elem_of_singleton.
  - intros [->|Hi]%elem_of_cons; [|by apply IH]. simpl. by apply IH.
Qed.

Lemma generated_nonzero spans : generated t spans -> forall i, i ∈ spans -> SpanID.Span i <> 0.
Proof.
  induction 1 as [g Hg|spans parent g Hgen IH Hp Hg Hfresh]; intros i.
  - by intros ->%list_elem_of_singleton.
  - intros [->|Hi]%elem_of_cons; [done|by apply IH].
Qed.

Lemma generated_NoDup spans : generated t spans -> NoDup (map SpanID.Span spans).
Proof.
  induction 1 as [g Hg|spans parent g Hgen IH Hp Hg Hfresh]; simpl.
  - apply NoDup_singleton.
  - by apply NoDup_cons.
Qed.

Lemma generated_span_inj spans :
  generated t spans ->
  forall i j, i ∈ spans -> j ∈ spans -> SpanID.Span i = SpanID.Span j -> i = j.
Proof.
  induction 1 as [g Hg|spans parent g Hgen IH Hp Hg Hfresh]; intros i j.
  - by intros ->%list_elem_of_singleton ->%list_elem_of_singleton.
  - intros [->|Hi]%elem_of_cons [->|Hj]%elem_of_cons; simpl; try done.
    + intros ->. exfalso. apply Hfresh. by apply (list_elem_of_fmap_2 SpanID.Span).
    + intros <-. exfalso. apply Hfresh. by apply (list_elem_of_fmap_2 SpanID.Span).
    + by apply IH.
Qed.

Lemma generated_root_unique spans :
  generated t spans ->
  forall i j, i ∈ spans -> j ∈ spans ->
    SpanID.Parent i = 0 -> SpanID.Parent j = 0 -> i = j.
Proof.
  induction 1 as [g Hg|spans parent g Hgen IH Hp Hg Hfresh]; intros i j.
  - by intros ->%list_elem_of_singleton ->%list_elem_of_singleton.
  - pose proof (generated_nonzero spans Hgen parent Hp) as Hnz.
    intros [->|Hi]%elem_of_cons [->|Hj]%elem_of_cons; simpl; try done.
    by apply IH.
Qed.

Lemma generated_has_root spans :
  generated t spans -> exists i, i ∈ spans /\ SpanID.Parent i = 0.
Proof.
  induction 1 as [g Hg|spans parent g Hgen (i & Hi & Hi0) Hp Hg Hfresh].
  - exists (NewRootSpanID t g). split; [by apply list_elem_of_singleton|done].
  - exists i. split; [by right|done].
Qed.

Lemma generated_parent spans :
  generated t spans ->
  forall i, i ∈ spans -> SpanID.Parent i <> 0 ->
    exists j, j ∈ spans /\ SpanID.Span j = SpanID.Parent i.
Proof.
  induction 1 as [g Hg|spans parent g Hgen IH Hp Hg Hfresh]; intros i.
  - by intros ->%list_elem_of_singleton.
  - intros [->|Hi]%elem_of_cons Hne.
    + exists parent. split; [by right|done].
    + destruct (IH i Hi Hne) as (j & Hj & Hjp). exists j. split; [by right|done].
Qed.

End Generated.

(** * The finished tree *)

(** [x] can be reached from [r] by following child slices. *)
Inductive reach (h : list Trace.t) (r : ptr) : ptr -> Prop :=
| reach_refl : reach h r r
| reach_step y x : reach h r y -> x ∈ Sub_at h y -> reach h r x.

Section Shape.
Variables (t : N) (l : list SpanID.t) (ms : memoryStore).
Hypothesis Hinv : run_inv t l ms.
Hypothesis Hnz : forall i, i ∈ l -> SpanID.Span i <> 0.

Lemma shape_no_zero : spanAt ms t 0 = None.
Proof.
  pose proof (ri_valid _ _ _ Hinv) as Hv.
  destruct (spanAt ms t 0) as [p|] eqn:Hp; [|done].
  destruct (v_span _ Hv _ _ _ Hp) as (i & Hi & Hit & Hik).
  exfalso. apply (Hnz i); [|done]. apply (ri_nodes _ _ _ Hinv); eauto.
Qed.

(** Every node of the trace is reachable from the root, whatever part
    of the trace has arrived. *)
Lemma shape_reach (full spans : list SpanID.t) (r : ptr) :
  (forall i, i ∈ l -> i ∈ full) ->
  (forall i j, i ∈ full -> j ∈ full -> SpanID.Span i = SpanID.Span j -> i = j) ->
  generated t spans -> (forall i, i ∈ spans -> i ∈ full) ->
  trace ms !! t = Some r ->
  forall X x, X ∈ spans -> ID_at (heap ms) x = Some X -> reach (heap ms) r x.
Proof.
  intros Hl Hinj Hgen Hsub Hr. pose proof (ri_valid _ _ _ Hinv) as Hv.
  pose proof (ri_tree _ _ _ Hinv) as [Hch _].
  induction Hgen as [g Hg|spans parent g Hgen IH Hp Hg Hfresh].
  - intros X x ->%list_elem_of_singleton HX.
    destruct (decide (x = r)) as [->|Hne]; [constructor|].
    apply (reach_step _ _ r); [constructor|].
    apply (Hch r x _ r Hr HX); [done|]. split; [done|]. simpl.
    by rewrite shape_no_zero.
  - assert (Hsub0 : forall i, i ∈ spans -> i ∈ full) by (intros i Hi; apply Hsub; by right).
    intros X x [->|HXin]%elem_of_cons HX; [|by eapply IH].
    destruct (decide (x = r)) as [->|Hne]; [constructor|].
    pose proof (generated_trace t spans Hgen parent Hp) as Hpt.
    assert (Hin : x ∈ Sub_at (heap ms)
                    (default r (spanAt ms t (SpanID.Span parent)))).
    { apply (Hch r x _ _ Hr HX); [done|]. by split. }
    destruct (spanAt ms t (SpanID.Span parent)) as [y|] eqn:Hy; simpl in Hin.
    + destruct (v_span _ Hv _ _ _ Hy) as (Y & HY & HYt & HYk).
      apply (reach_step _ _ y); [|done].
      assert (Y = parent) as ->.
      { apply Hinj; [|by apply Hsub0|done]. apply Hl.
        apply (ri_nodes _ _ _ Hinv); eauto. }
      by eapply IH.
    + apply (reach_step _ _ r); [constructor|done].
Qed.

End Shape.

Lemma spanAt_of_node ms x X :
  valid ms -> ID_at (heap ms) x = Some X ->
  spanAt ms (SpanID.Trace X) (SpanID.Span X) = Some x.
Proof. intros Hv HX. by apply (v_reg _ Hv). Qed.

Lemma rooted_of_node ms x X :
  valid ms -> ID_at (heap ms) x = Some X -> is_Some (trace ms !! SpanID.Trace X).
Proof.
  intros Hv HX. destruct (trace ms !! SpanID.Trace X) eqn:Hr; [eauto|].
  by destruct (no_nodes_without_root ms _ x X Hv Hr HX).
Qed.

(** The state reached once the whole generated trace has arrived. *)
Lemma complete_run_shape t spans l ms :
  generated t spans -> (forall i, i ∈ l <-> i ∈ spans) -> run_inv t l ms ->
  exists r R,
    trace ms !! t = Some r /\ ID_at (heap ms) r = Some R /\ SpanID.Parent R = 0 /\
    (forall x y X Y,
       ID_at (heap ms) x = Some X -> ID_at (heap ms) y = Some Y ->
       SpanID.Trace X = t -> SpanID.Trace Y = t ->
       (x ∈ Sub_at (heap ms) y <-> SpanID.Parent X = SpanID.Span Y)) /\
    (forall x X, ID_at (heap ms) x = Some X -> SpanID.Trace X = t ->
       reach (heap ms) r x).
Proof.
  intros Hgen Hl Hinv. pose proof (ri_valid _ _ _ Hinv) as Hv.
  pose proof (ri_tree _ _ _ Hinv) as [Hch _].
  assert (Hnz : forall i, i ∈ l -> SpanID.Span i <> 0)
    by (intros i Hi; apply (generated_nonzero t spans Hgen), Hl, Hi).
  destruct (generated_has_root t spans Hgen) as (R0 & HR0 & HR00).
  assert (HR0t : SpanID.Trace R0 = t) by (by apply (generated_trace t spans Hgen)).
  assert (exists p, ID_at (heap ms) p = Some R0) as [p0 Hp0]
    by (apply (ri_nodes _ _ _ Hinv); [done|by apply Hl]).
  destruct (rooted_of_node ms p0 R0 Hv Hp0) as [r Hr]. rewrite HR0t in Hr.
  destruct (v_root _ Hv _ _ Hr) as (R & HR & HRt).
  assert (HRp : SpanID.Parent R = 0)
    by (apply (ri_root _ _ _ Hinv Hnz R0 r R); [by apply Hl|done..]).
  assert (HRin : R ∈ spans) by (apply Hl, (ri_nodes _ _ _ Hinv); eauto).
  exists r, R. split; [done|]. split; [done|]. split; [done|]. split.
  - intros x y X Y HX HY HXt HYt. rewrite (Hch r x X y Hr HX HXt).
    assert (HXin : X ∈ spans) by (apply Hl, (ri_nodes _ _ _ Hinv); eauto).
    assert (HYin : Y ∈ spans) by (apply Hl, (ri_nodes _ _ _ Hinv); eauto).
    pose proof (spanAt_of_node ms y Y Hv HY) as HYreg. rewrite HYt in HYreg.
    split.
    + intros [Hxr Hhome].
      destruct (spanAt ms t (SpanID.Parent X)) as [y'|] eqn:Hy'; simpl in Hhome.
      * subst y'. destruct (v_span _ Hv _ _ _ Hy') as (Y' & HY' & _ & HYk). congruence.
      * exfalso. destruct (decide (SpanID.Parent X = 0)) as [HX0|HX0].
        -- apply Hxr. assert (X = R) as -> by (by apply (generated_root_unique t spans Hgen)).
           pose proof (spanAt_of_node ms x R Hv HX) as H1.
           pose proof (spanAt_of_node ms r R Hv HR) as H2. congruence.
        -- destruct (generated_parent t spans Hgen X HXin HX0) as (j & Hj & Hjp).
           assert (exists p, ID_at (heap ms) p = Some j) as [p Hp].
           { apply (ri_nodes _ _ _ Hinv); [by apply (generated_trace t spans Hgen)|by apply Hl]. }
           pose proof (spanAt_of_node ms p j Hv Hp) as Hreg.
           rewrite (generated_trace t spans Hgen j Hj), Hjp in Hreg. congruence.
    + intros Hpar. rewrite Hpar, HYreg. split; [|done].
      intros ->. assert (X = R) as -> by congruence.
      apply (generated_nonzero t spans Hgen Y HYin). congruence.
  - intros x X HX HXt.
    apply (shape_reach t l ms Hinv Hnz spans spans r) with (X := X); try done.
    + intros i Hi. by apply Hl.
    + intros i j. by apply (generated_span_inj t spans Hgen).
    + apply Hl, (ri_nodes _ _ _ Hinv); eauto.
Qed.

Lemma Permutation_callsFor_NoDup t spans l :
  generated t spans -> l ≡ₚ spans -> NoDup (map SpanID.Span l).
Proof.
  intros Hgen Hperm. rewrite Hperm. by apply (generated_NoDup t).
Qed.

(** The finished tree of trace [t], made of the spans [spans], with root
    node [r]. *)
Record shaped (t : N) (spans : list SpanID.t) (ms : memoryStore) (r : ptr) : Prop := Shaped {
  sh_valid : valid ms;
  sh_root : trace ms !! t = Some r;
  sh_root_span : exists R, ID_at (heap ms) r = Some R /\ SpanID.Parent R = 0 /\ R ∈ spans;
  sh_nodes : forall X, SpanID.Trace X = t ->
    ((exists x, ID_at (heap ms) x = Some X) <-> X ∈ spans);
  sh_child : forall x y X Y,
    ID_at (heap ms) x = Some X -> ID_at (heap ms) y = Some Y ->
    SpanID.Trace X = t -> SpanID.Trace Y = t ->
    (x ∈ Sub_at (heap ms) y <-> SpanID.Parent X = SpanID.Span Y);
  sh_nodup : forall y Y,
    ID_at (heap ms) y = Some Y -> SpanID.Trace Y = t -> NoDup (Sub_at (heap ms) y);
  sh_reach : forall x X,
    ID_at (heap ms) x = Some X -> SpanID.Trace X = t -> reach (heap ms) r x
}.

Lemma complete_run_shaped t spans calls :
  generated t spans -> callsFor t calls ≡ₚ spans ->
  exists ms r, CollectAll calls NewMemoryStore = Ok ms /\ shaped t spans ms r.
Proof.
  intros Hgen Hperm.
  destruct (run_inv_from_New t calls) as (ms & Hrun & Hinv).
  { by eapply Permutation_callsFor_NoDup. }
  assert (Hl : forall i, i ∈ callsFor t calls <-> i ∈ spans)
    by (intros i; by rewrite Hperm).
  destruct (complete_run_shape t spans _ ms Hgen Hl Hinv)
    as (r & R & Hr & HR & HRp & Hch & Hreach).
  exists ms, r. split; [done|]. split; try done.
  - apply (ri_valid _ _ _ Hinv).
  - exists R. split; [done|]. split; [done|].
    apply Hl, (ri_nodes _ _ _ Hinv); [|eauto].
    destruct (v_root _ (ri_valid _ _ _ Hinv) _ _ Hr) as (R' & HR' & ?). congruence.
  - intros X HXt. rewrite <- Hl. by apply (ri_nodes _ _ _ Hinv).
  - apply (ri_tree _ _ _ Hinv).
Qed.

(** Decidable facts about the examples, by evaluation. *)
Ltac by_compute :=
  lazymatch goal with
  | |- ?P => apply (@bool_decide_unpack P _); vm_compute; exact I
  end.

Lemma ex_generated : generated 1 [exC; exB; exA; exR].
Proof.
  apply (generated_child 1 [exB; exA; exR] exB 4); [|by left|done|].
  - apply (generated_child 1 [exA; exR] exA 3); [|by left|done|].
    + apply (generated_child 1 [exR] exR 2); [|by left|done|].
      * by apply generated_root.
      * by_compute.
    + by_compute.
  - by_compute.
Qed.

(** Calls of the examples: the trace of [ex_generated], out of order and
    mixed with spans of trace 2. *)
Definition exCalls : list (SpanID.t * list Annotation) :=
  [(exC, []); (NewRootSpanID 2 7, []); (exA, [exName]); (exR, []);
   (NewSpanID (NewRootSpanID 2 7) 8, []); (exB, [])].

Lemma exCalls_perm : callsFor 1 exCalls ≡ₚ [exC; exB; exA; exR].
Proof. by_compute. Qed.

(** * Properties: the assembled tree *)

(** Once every span of a trace made by [NewRootSpanID] and [NewSpanID]
    has been collected once, in any order and among calls for other
    traces, [Trace] returns the node of the root span, and among the
    nodes of the trace [x] is listed as a child of [y] exactly when [x]'s
    Parent is [y]'s Span; every node is listed at most once and can be
    reached from the root. *)
Theorem complete_trace_shape
    (t : N) (spans : list SpanID.t) (calls : list (SpanID.t * list Annotation)) :
  generated t spans -> callsFor t calls ≡ₚ spans ->
  exists ms r R,
    CollectAll calls NewMemoryStore = Ok ms /\
    TraceOf t ms = inl r /\
    ID_at (heap ms) r = Some R /\ SpanID.Parent R = 0 /\ R ∈ spans /\
    (forall X, SpanID.Trace X = t ->
       ((exists x, ID_at (heap ms) x = Some X) <-> X ∈ spans)) /\
    (forall x y X Y,
       ID_at (heap ms) x = Some X -> ID_at (heap ms) y = Some Y ->
       SpanID.Trace X = t -> SpanID.Trace Y = t ->
       (x ∈ Sub_at (heap ms) y <-> SpanID.Parent X = SpanID.Span Y)) /\
    (forall y Y, ID_at (heap ms) y = Some Y -> SpanID.Trace Y = t ->
       NoDup (Sub_at (heap ms) y)) /\
    (forall x X, ID_at (heap ms) x = Some X -> SpanID.Trace X = t ->
       reach (heap ms) r x).
Proof.
  intros Hgen Hperm.
  destruct (complete_run_shaped t spans calls Hgen Hperm) as (ms & r & Hrun & Hsh).
  destruct Hsh as [Hv Hr (R & HR & HRp & HRin) Hnodes Hch Hnd Hreach].
  exists ms, r, R. unfold TraceOf. rewrite Hr. done.
Qed.

Lemma complete_trace_shape_witness :
  exists ms r R,
    CollectAll exCalls NewMemoryStore = Ok ms /\
    TraceOf 1 ms = inl r /\
    ID_at (heap ms) r = Some R /\ SpanID.Parent R = 0 /\ R ∈ [exC; exB; exA; exR] /\
    (forall X, SpanID.Trace X = 1 ->
       ((exists x, ID_at (heap ms) x = Some X) <-> X ∈ [exC; exB; exA; exR])) /\
    (forall x y X Y,
       ID_at (heap ms) x = Some X -> ID_at (heap ms) y = Some Y ->
       SpanID.Trace X = 1 -> SpanID.Trace Y = 1 ->
       (x ∈ Sub_at (heap ms) y <-> SpanID.Parent X = SpanID.Span Y)) /\
    (forall y Y, ID_at (heap ms) y = Some Y -> SpanID.Trace Y = 1 ->
       NoDup (Sub_at (heap ms) y)) /\
    (forall x X, ID_at (heap ms) x = Some X -> SpanID.Trace X = 1 ->
       reach (heap ms) r x).
Proof.
  exact (complete_trace_shape 1 [exC; exB; exA; exR] exCalls ex_generated exCalls_perm).
Defined.
